(** * SFTP-Sync-Manager: the reconciliation engine, embedded and verified

    A shallow embedding of the parts of the repository that decide what a sync
    cycle does:

    - [ignore_parser.py]: [IgnoreRules.should_ignore] (module [Ignore]);
    - [storage.py]: the [sync_state] table with [save_sync_state] and
      [load_sync_state] (module [Storage]);
    - [sync_worker.py]: the local scan, the action planner, action execution,
      the cycle with its [try]/[except], and the worker's [run] loop
      (module [Worker]).

    Conventions of the embedding.

    - A Python [str] is a Rocq [string]; a path is the string of its bytes, so
      the order Python's [sorted] uses on paths (code points) is the
      lexicographic order on the bytes ([String.le]).
    - A Python [dict] is a [gmap], a Python [set] is a [gset]. Python promises
      no iteration order for a set; the model's [elements] is one enumeration
      without repetition, and the general theorems use nothing else about it.
    - An [mtime] is a finite Python float or an integer number of seconds; it
      is embedded as an exact rational ([Q]), sizes as integers ([Z]).
    - A call that may raise returns a [result]; everything the worker does to
      the outside (status callback, log table, sync-state table) is threaded
      through an explicit [World]. *)

From Stdlib Require Import Ascii String QArith Qabs.
From stdpp Require Import gmap strings list sorting.

Local Open Scope string_scope.
Local Open Scope list_scope.

(** ** Results of calls that may raise *)

Inductive result (A : Type) : Type :=
| Ok (a : A)
| Raise (msg : string).
Arguments Ok {A} a.
Arguments Raise {A} msg.

(** ** Python string methods used by the sources *)

Module PyStr.

Definition in_chars (c : ascii) (chars : string) : bool :=
  existsb (fun d => bool_decide (c = d)) (list_ascii_of_string chars).

(** [s.lstrip(chars)]: drop the leading characters that occur in [chars]. *)
Fixpoint lstrip (chars s : string) : string :=
  match s with
  | EmptyString => EmptyString
  | String c s' => if in_chars c chars then lstrip chars s' else s
  end.

(** [s.rstrip(chars)]: drop the trailing characters that occur in [chars]. *)
Fixpoint rstrip (chars s : string) : string :=
  match s with
  | EmptyString => EmptyString
  | String c s' =>
      match rstrip chars s' with
      | EmptyString => if in_chars c chars then EmptyString else String c EmptyString
      | r => String c r
      end
  end.

(** [s.startswith(p)]. *)
Fixpoint startswith (p s : string) : bool :=
  match p, s with
  | EmptyString, _ => true
  | String a p', String b s' => bool_decide (a = b) && startswith p' s'
  | String _ _, EmptyString => false
  end.

(** [s.endswith(c)] for a one-character suffix [c]. *)
Fixpoint endswith_char (c : ascii) (s : string) : bool :=
  match s with
  | EmptyString => false
  | String d EmptyString => bool_decide (d = c)
  | String _ s' => endswith_char c s'
  end.

(** [s.replace(a, b)] for one-character [a] and [b]. *)
Fixpoint replace_char (a b : ascii) (s : string) : string :=
  match s with
  | EmptyString => EmptyString
  | String c s' => String (if bool_decide (c = a) then b else c) (replace_char a b s')
  end.

(** [s[1:]]. *)
Definition drop1 (s : string) : string :=
  match s with
  | EmptyString => EmptyString
  | String _ s' => s'
  end.

(** [s.split(sep)[-1]]: what follows the last [sep] (all of [s] without one). *)
Fixpoint last_segment_go (sep : ascii) (cur s : string) : string :=
  match s with
  | EmptyString => cur
  | String c s' =>
      if bool_decide (c = sep) then last_segment_go sep EmptyString s'
      else last_segment_go sep (cur +:+ String c EmptyString) s'
  end.
Definition last_segment (sep : ascii) (s : string) : string :=
  last_segment_go sep EmptyString s.

End PyStr.

(** ** [fnmatch.fnmatch]

    [should_ignore] calls the Python standard library's [fnmatch.fnmatch],
    which is not code of this repository. The model below follows the
    library's [translate]: [*] matches any run of characters (also [/]), [?]
    one character, a bracket expression [[seq]] or [[!seq]] one character in
    or not in [seq] (with ranges [a-z]; a reversed range is dropped; a [[]
    without a closing bracket is a literal), and every other character
    itself. The whole name must match. [os.path.normcase] is the identity
    (POSIX). *)

Module Fnmatch.

Inductive token : Type :=
| TStar
| TAny
| TClass (negated : bool) (items : list (ascii * ascii))
| TLit (c : ascii).

(** One character of the text between the brackets after [translate] has
    escaped it: a literal, or the hyphen that joins the ends of a range. *)
Inductive sym : Type :=
| SLit (c : ascii)
| SHyphen.

Definition ascii_leb (a b : ascii) : bool := (N_of_ascii a <=? N_of_ascii b)%N.

(** The text of a bracket expression: after [[], an optional [!], an optional
    []], then everything up to the next []]. [None] without a closing one. *)
Fixpoint until_close (l : list ascii) : option (list ascii * list ascii) :=
  match l with
  | [] => None
  | c :: l' =>
      if bool_decide (c = "]"%char) then Some ([], l')
      else match until_close l' with
           | Some (mid, rest) => Some (c :: mid, rest)
           | None => None
           end
  end.

Definition find_close (rest : list ascii) : option (list ascii * list ascii) :=
  let '(p1, r1) :=
    match rest with
    | c :: r => if bool_decide (c = "!"%char) then ([c], r) else ([], rest)
    | [] => ([], rest)
    end in
  let '(p2, r2) :=
    match r1 with
    | c :: r => if bool_decide (c = "]"%char) then ([c], r) else ([], r1)
    | [] => ([], r1)
    end in
  match until_close r2 with
  | Some (mid, after) => Some (p1 ++ p2 ++ mid, after)
  | None => None
  end.

(** The chunks between range hyphens. [skip] counts the characters that
    cannot be a range hyphen: the first one (two after a [!]), and the two
    that follow a range hyphen. A hyphen in last position is a literal. *)
Fixpoint chunks_go (skip : nat) (cur rest : list ascii) : list (list ascii) :=
  match rest with
  | [] => [cur]
  | c :: rest' =>
      match skip with
      | S k => chunks_go k (cur ++ [c]) rest'
      | O =>
          if bool_decide (c = "-"%char) then
            match rest' with
            | [] => [cur ++ [c]]
            | _ => cur :: chunks_go 2 [] rest'
            end
          else chunks_go 0 (cur ++ [c]) rest'
      end
  end.

Definition chunks (stuff : list ascii) : list (list ascii) :=
  match stuff with
  | c :: _ => chunks_go (if bool_decide (c = "!"%char) then 2 else 1) [] stuff
  | [] => [[]]
  end.

(** "Remove empty ranges": from the last chunk to the first, a chunk whose
    last character is above the first of the next loses it, the next loses
    its first, and the two are joined. *)
Definition drop_empty_ranges (cs : list (list ascii)) : list (list ascii) :=
  foldr (fun c acc =>
           match acc with
           | [] => [c]
           | c' :: acc' =>
               match last c, head c' with
               | Some hi, Some lo =>
                   if ascii_leb hi lo then c :: acc
                   else (removelast c ++ tail c') :: acc'
               | _, _ => c :: acc
               end
           end) [] cs.

Fixpoint join_chunks (cs : list (list ascii)) : list sym :=
  match cs with
  | [] => []
  | [c] => map SLit c
  | c :: cs' => map SLit c ++ SHyphen :: join_chunks cs'
  end.

Definition sym_char (s : sym) : ascii :=
  match s with
  | SLit c => c
  | SHyphen => "-"%char
  end.

(** The character class the regular expression [[stuff]] denotes. *)
Fixpoint class_items (l : list sym) : list (ascii * ascii) :=
  match l with
  | [] => []
  | x :: l1 =>
      match l1 with
      | SHyphen :: y :: rest => (sym_char x, sym_char y) :: class_items rest
      | _ => (sym_char x, sym_char x) :: class_items l1
      end
  end.

Definition class_token (stuff : list ascii) : token :=
  match join_chunks (drop_empty_ranges (chunks stuff)) with
  | SLit c :: rest =>
      if bool_decide (c = "!"%char) then TClass true (class_items rest)
      else TClass false (class_items (SLit c :: rest))
  | syms => TClass false (class_items syms)
  end.

Fixpoint translate_go (fuel : nat) (pat : list ascii) : list token :=
  match fuel, pat with
  | S fuel', c :: rest =>
      if bool_decide (c = "*"%char) then TStar :: translate_go fuel' rest
      else if bool_decide (c = "?"%char) then TAny :: translate_go fuel' rest
      else if bool_decide (c = "["%char) then
        match find_close rest with
        | Some (stuff, after) => class_token stuff :: translate_go fuel' after
        | None => TLit c :: translate_go fuel' rest
        end
      else TLit c :: translate_go fuel' rest
  | _, _ => []
  end.

(** Every step consumes a character, so the pattern's length is fuel enough. *)
Definition translate (pat : list ascii) : list token :=
  translate_go (length pat) pat.

Definition token_match (t : token) (c : ascii) : bool :=
  match t with
  | TStar => true
  | TAny => true
  | TLit d => bool_decide (c = d)
  | TClass negated items =>
      xorb negated (existsb (fun '(lo, hi) => ascii_leb lo c && ascii_leb c hi) items)
  end.

Fixpoint tokens_match (ts : list token) : list ascii -> bool :=
  match ts with
  | [] => fun s => match s with [] => true | _ => false end
  | TStar :: ts' =>
      fix star (s : list ascii) : bool :=
        tokens_match ts' s || match s with [] => false | _ :: s' => star s' end
  | t :: ts' =>
      fun s => match s with
               | [] => false
               | c :: s' => token_match t c && tokens_match ts' s'
               end
  end.

Definition fnmatch (name pat : string) : bool :=
  tokens_match (translate (list_ascii_of_string pat)) (list_ascii_of_string name).

End Fnmatch.

(** ** [ignore_parser.py] *)

Module Ignore.

Import PyStr.

Record IgnoreRules : Type := { patterns : list string }.

(** Python's [str.strip()]: the white space below 128 (tab to carriage
    return, the four separators 28 to 31, and the space). *)
Definition whitespace : string :=
  String "009" (String "010" (String "011" (String "012" (String "013"
    (String "028" (String "029" (String "030" (String "031" " ")))))))).

Definition strip (s : string) : string := rstrip whitespace (lstrip whitespace s).

(** [_load_patterns], from the lines of the ignore file ([None]: no file). *)
Definition load_patterns (lines : option (list string)) : list string :=
  match lines with
  | None => []
  | Some raws =>
      foldl (fun patterns raw =>
               let line := strip raw in
               if bool_decide (line = "") || startswith "#" line then patterns
               else patterns ++ [line])
            [] raws
  end.

(** The path as [should_ignore] matches it. *)
Definition normalize (relative_path : string) : string :=
  let rel := lstrip "./" (replace_char "\"%char "/"%char relative_path) in
  if endswith_char "/"%char rel && (1 <? String.length rel)%nat then rstrip "/" rel else rel.

(** One turn of the loop over the patterns: the new value of [matched]. *)
Definition apply_pattern (rel : string) (matched : bool) (pattern : string) : bool :=
  let negate := startswith "!" pattern in
  let rule := if negate then drop1 pattern else pattern in
  let rule := if startswith "/" rule then lstrip "/" rule else rule in
  let candidate := rel in
  if endswith_char "/"%char rule then
    let rule := rstrip "/" rule in
    if negb (startswith rule candidate) then matched
    else negb negate
  else
    let match_ :=
      Fnmatch.fnmatch candidate rule
      || Fnmatch.fnmatch (last_segment "/"%char candidate) rule in
    if match_ then negb negate else matched.

Definition should_ignore (self : IgnoreRules) (relative_path : string) : bool :=
  foldl (apply_pattern (normalize relative_path)) false (patterns self).

End Ignore.

(** ** [storage.py]: the [sync_state] table *)

Module Storage.

(** One value of the map [load_sync_state] returns and [save_sync_state]
    takes. [save_sync_state] reads every key with [meta.get], so a missing
    ["hash"] key and [hash = None] are the same entry. *)
Record SyncEntry : Type := {
  local_exists : bool;
  local_mtime : option Q;
  remote_exists : bool;
  remote_mtime : option Q;
  hash : option string;
}.

(** A row of [sync_state], without the [AUTOINCREMENT] id that no query
    reads. The two [_exists] columns are [INTEGER]. *)
Record Row : Type := {
  row_connection_id : Z;
  row_path : string;
  row_local_exists : Z;
  row_local_mtime : option Q;
  row_remote_exists : Z;
  row_remote_mtime : option Q;
  row_hash : option string;
}.

(** Python's [int(b)] and [bool(n)]. *)
Definition int_of_bool (b : bool) : Z := if b then 1%Z else 0%Z.
Definition bool_of_int (n : Z) : bool := negb (n =? 0)%Z.

(** The tuple [save_sync_state] inserts for [(path, meta)]. *)
Definition row_of (connection_id : Z) (item : string * SyncEntry) : Row :=
  let '(path, meta) := item in
  {| row_connection_id := connection_id;
     row_path := path;
     row_local_exists := int_of_bool (local_exists meta);
     row_local_mtime := local_mtime meta;
     row_remote_exists := int_of_bool (remote_exists meta);
     row_remote_mtime := remote_mtime meta;
     row_hash := hash meta |}.

(** The dictionary [load_sync_state] builds from one selected row. *)
Definition entry_of (row : Row) : SyncEntry :=
  {| local_exists := bool_of_int (row_local_exists row);
     local_mtime := row_local_mtime row;
     remote_exists := bool_of_int (row_remote_exists row);
     remote_mtime := row_remote_mtime row;
     hash := row_hash row |}.

Definition of_connection (connection_id : Z) (row : Row) : bool :=
  (row_connection_id row =? connection_id)%Z.

(** [DELETE FROM sync_state WHERE connection_id = ?], then one [INSERT] per
    item of [entries], in the dictionary's iteration order. *)
Definition save_sync_state (table : list Row) (connection_id : Z)
    (entries : gmap string SyncEntry) : list Row :=
  let kept := List.filter (fun row => negb (of_connection connection_id row)) table in
  foldl (fun table item => table ++ [row_of connection_id item]) kept (map_to_list entries).

(** [SELECT ... WHERE connection_id = ?], then [result[row["path"]] = {...}]
    for every row, in the order of the table. *)
Definition load_sync_state (table : list Row) (connection_id : Z) : gmap string SyncEntry :=
  foldl (fun result row => <[row_path row := entry_of row]> result) ∅
        (List.filter (of_connection connection_id) table).

End Storage.

(** ** [sync_worker.py] *)

Module Worker.

Import PyStr Storage.

(** *** Data *)

(** A value of a snapshot: [{"mtime": ..., "size": ...}]. *)
Record FileMeta : Type := { mtime : Q; size : Z }.

Inductive ActionKind : Type := upload | download | delete_local | delete_remote.

Global Instance ActionKind_eq_dec : EqDecision ActionKind.
Proof. solve_decision. Defined.

(** A planned action: the tuple [(action, path)]. *)
Definition Action : Type := ActionKind * string.

(** The keys of [self.connection] the cycle reads; the two flags are the
    [INTEGER] columns of the [connections] table, read through [bool(...)]. *)
Record Connection : Type := {
  conn_id : Z;
  conn_allow_delete : Z;
  conn_local_priority : Z;
}.

Inductive Status : Type := Stopped | Running | Syncing | Error.

(** One call [status_callback(conn_id, status, error)]. *)
Definition StatusCall : Type := Z * Status * option string.

(** One row [add_log] inserts (the timestamp column is left out). *)
Record LogEntry : Type := {
  log_connection_id : Z;
  log_type : string;
  log_path : string;
  log_message : string;
}.

(** What a worker reads and writes: the [sync_state] table, the [logs]
    table, the calls it made to its status callback (oldest first), its dirty
    set, and a counter of the [save_sync_state] calls. *)
Record World : Type := {
  sync_state : list Row;
  logs : list LogEntry;
  status_calls : list StatusCall;
  dirty_paths : gset string;
  save_calls : nat;
}.

Definition status_callback (conn : Connection) (status : Status)
    (error : option string) (w : World) : World :=
  {| sync_state := sync_state w;
     logs := logs w;
     status_calls := status_calls w ++ [(conn_id conn, status, error)];
     dirty_paths := dirty_paths w;
     save_calls := save_calls w |}.

Definition add_log (conn : Connection) (type path message : string) (w : World) : World :=
  {| sync_state := sync_state w;
     logs := logs w ++ [{| log_connection_id := conn_id conn; log_type := type;
                           log_path := path; log_message := message |}];
     status_calls := status_calls w;
     dirty_paths := dirty_paths w;
     save_calls := save_calls w |}.

Definition storage_save (conn : Connection) (snapshot : gmap string SyncEntry)
    (w : World) : World :=
  {| sync_state := save_sync_state (sync_state w) (conn_id conn) snapshot;
     logs := logs w;
     status_calls := status_calls w;
     dirty_paths := dirty_paths w;
     save_calls := S (save_calls w) |}.

(** *** The dirty set *)

(** [mark_dirty]: [relative] is the path relative to the local root as
    [as_posix()] gives it, [None] when [relative_to] raised. *)
Definition mark_dirty (relative : option string) (w : World) : World :=
  match relative with
  | None => w
  | Some relative_str =>
      if bool_decide (relative_str = "") then w
      else {| sync_state := sync_state w;
              logs := logs w;
              status_calls := status_calls w;
              dirty_paths := dirty_paths w ∪ {[relative_str]};
              save_calls := save_calls w |}
  end.

(** [_consume_dirty]: a copy of the set, and the worker's set cleared. *)
Definition consume_dirty (w : World) : gset string * World :=
  (dirty_paths w,
   {| sync_state := sync_state w;
      logs := logs w;
      status_calls := status_calls w;
      dirty_paths := ∅;
      save_calls := save_calls w |}).

(** *** [_scan_local] *)

(** What [full_path.stat()] does: only [FileNotFoundError] is caught. *)
Inductive StatResult : Type :=
| StatOk (st : FileMeta)
| StatNotFound
| StatError (msg : string).

(** A directory as [os.walk] reports it: its [filenames] (each with the
    outcome of its [stat]) and its [dirs]. *)
Local Unset Elimination Schemes.
Inductive Dir : Type :=
| MkDir (filenames : list (string * StatResult)) (dirs : list (string * Dir)).
Local Set Elimination Schemes.

(** [Path(rel_dir, name).as_posix()]. *)
Definition join_path (rel_dir name : string) : string :=
  if bool_decide (rel_dir = "") then name else rel_dir +:+ "/" +:+ name.

Fixpoint scan_files (ignore : Ignore.IgnoreRules) (rel_dir : string)
    (filenames : list (string * StatResult)) (files : gmap string FileMeta)
    : result (gmap string FileMeta) :=
  match filenames with
  | [] => Ok files
  | (name, st) :: rest =>
      let rel_path := lstrip "./" (join_path rel_dir name) in
      if Ignore.should_ignore ignore rel_path then scan_files ignore rel_dir rest files
      else match st with
           | StatNotFound => scan_files ignore rel_dir rest files
           | StatError msg => Raise msg
           | StatOk st => scan_files ignore rel_dir rest (<[rel_path := st]> files)
           end
  end.

(** The loop over [os.walk], top down: the files of a directory, then its
    sub-directories that are not pruned, each under its true relative path. *)
Fixpoint walk (ignore : Ignore.IgnoreRules) (rel_dir : string) (d : Dir)
    (files : gmap string FileMeta) {struct d} : result (gmap string FileMeta) :=
  match d with
  | MkDir filenames dirs =>
      match scan_files ignore rel_dir filenames files with
      | Raise msg => Raise msg
      | Ok files =>
          (fix walk_dirs (dirs : list (string * Dir)) (files : gmap string FileMeta)
             : result (gmap string FileMeta) :=
             match dirs with
             | [] => Ok files
             | (d_name, sub) :: rest =>
                 if Ignore.should_ignore ignore (lstrip "./" (join_path rel_dir d_name))
                 then walk_dirs rest files
                 else match walk ignore (join_path rel_dir d_name) sub files with
                      | Raise msg => Raise msg
                      | Ok files => walk_dirs rest files
                      end
             end) dirs files
      end
  end.

Definition scan_local (ignore : Ignore.IgnoreRules) (tree : Dir)
    : result (gmap string FileMeta) :=
  walk ignore "" tree ∅.

(** *** [_plan_actions] *)

Definition Qlt_bool (a b : Q) : bool := negb (Qle_bool b a).

Definition files_differ (local_meta remote_meta : FileMeta) : bool :=
  let size_diff := Z.abs (size local_meta - size remote_meta) in
  let time_diff := Qabs (mtime local_meta - mtime remote_meta) in
  (0 <? size_diff)%Z || Qlt_bool 1 time_diff.

Definition allow_delete (conn : Connection) : bool := bool_of_int (conn_allow_delete conn).
Definition local_priority (conn : Connection) : bool := bool_of_int (conn_local_priority conn).

(** [prev and prev.get("local_exists") and prev.get("remote_exists")]. *)
Definition prev_both (prev : option SyncEntry) : bool :=
  match prev with
  | Some e => local_exists e && remote_exists e
  | None => false
  end.

(** The body of the loop: what one [path] appends to [actions]. *)
Definition plan_path (conn : Connection) (local_files remote_files : gmap string FileMeta)
    (last_state : gmap string SyncEntry) (path : string) : list Action :=
  let local_meta := local_files !! path in
  let remote_meta := remote_files !! path in
  let prev := last_state !! path in
  match local_meta, remote_meta with
  | Some local_meta, Some remote_meta =>
      if files_differ local_meta remote_meta then
        if local_priority conn || Qle_bool (mtime remote_meta) (mtime local_meta)
        then [(upload, path)]
        else [(download, path)]
      else []
  | Some _, None =>
      if prev_both prev then
        if allow_delete conn then [(delete_local, path)] else [(upload, path)]
      else [(upload, path)]
  | None, Some _ =>
      if prev_both prev then
        if allow_delete conn then [(delete_remote, path)] else [(download, path)]
      else [(download, path)]
  | None, None => []
  end.

(** [list(dirty) + sorted(all_paths - dirty)]. *)
Definition ordered (local_files remote_files : gmap string FileMeta)
    (dirty : gset string) : list string :=
  let all_paths : gset string := dom local_files ∪ dom remote_files in
  elements dirty ++ merge_sort String.le (elements (all_paths ∖ dirty)).

Definition plan_actions (conn : Connection) (local_files remote_files : gmap string FileMeta)
    (last_state : gmap string SyncEntry) (dirty : gset string) : list Action :=
  foldl (fun actions path => actions ++ plan_path conn local_files remote_files last_state path)
        [] (ordered local_files remote_files dirty).

(** *** [_build_snapshot] *)

Definition snapshot_entry (local_files remote_files : gmap string FileMeta)
    (path : string) : SyncEntry :=
  {| local_exists := bool_decide (is_Some (local_files !! path));
     local_mtime := mtime <$> local_files !! path;
     remote_exists := bool_decide (is_Some (remote_files !! path));
     remote_mtime := mtime <$> remote_files !! path;
     hash := None |}.

Definition build_snapshot (local_files remote_files : gmap string FileMeta)
    : gmap string SyncEntry :=
  foldl (fun snapshot path => <[path := snapshot_entry local_files remote_files path]> snapshot)
        ∅ (elements (dom local_files ∪ dom remote_files : gset string)).

(** *** [_execute_action] *)

(** What the I/O of one action does. [ExecOk st]: every call in the [try]
    succeeded, [st] being what [local_path.stat()] returned (read by uploads
    and downloads only). [ExecFails msg]: a call in the [try] raised and the
    handler logged it. [ExecEscapes msg]: an exception left
    [_execute_action] (raised outside its [try] or inside its handler). *)
Inductive ExecOutcome : Type :=
| ExecOk (st : FileMeta)
| ExecFails (msg : string)
| ExecEscapes (msg : string).

Definition execute_action (conn : Connection) (exec : Action -> ExecOutcome)
    (a : Action) (local_files remote_files : gmap string FileMeta) (w : World)
    : result (gmap string FileMeta * gmap string FileMeta * World) :=
  let '(action, path) := a in
  match exec a with
  | ExecEscapes msg => Raise msg
  | ExecFails msg => Ok (local_files, remote_files, add_log conn "error" path msg w)
  | ExecOk st =>
      match action with
      | upload =>
          Ok (local_files, <[path := st]> remote_files,
              add_log conn "upload" path "Uploaded to remote host" w)
      | download =>
          Ok (<[path := st]> local_files, remote_files,
              add_log conn "download" path "Downloaded from remote host" w)
      | delete_local =>
          Ok (delete path local_files, remote_files,
              add_log conn "delete_local" path "Removed local file after remote delete" w)
      | delete_remote =>
          Ok (local_files, delete path remote_files,
              add_log conn "delete_remote" path "Removed remote file after local delete" w)
      end
  end.

(** *** [_sync_cycle] *)

(** What the outside does during one cycle. *)
Record CycleEnv : Type := {
  env_stop : bool;                                 (* [stop_event.is_set()] on entry *)
  env_ignore_file : result (option (list string)); (* reading [.sftpsyncignore] *)
  env_tree : Dir;                                  (* the local tree *)
  env_load : option string;                        (* [load_sync_state] raising *)
  env_connect : option string;                     (* [SFTPClient.__enter__] raising *)
  env_listing : result (gmap string FileMeta);     (* [list_recursive] *)
  env_exec : Action -> ExecOutcome;                (* the I/O of each action *)
}.

(** How the body of the [try] ends: by an exception, or normally with the two
    snapshots as the actions left them. *)
Inductive SessionResult : Type :=
| SessionRaised (exc : string) (w : World)
| SessionDone (local_snapshot remote_snapshot : gmap string FileMeta) (w : World).

(** [for action, path in actions: self._execute_action(...)]. *)
Fixpoint execute_all (conn : Connection) (exec : Action -> ExecOutcome)
    (actions : list Action) (local_files remote_files : gmap string FileMeta)
    (w : World) : SessionResult :=
  match actions with
  | [] => SessionDone local_files remote_files w
  | a :: rest =>
      match execute_action conn exec a local_files remote_files w with
      | Raise msg => SessionRaised msg w
      | Ok (local_files, remote_files, w) =>
          execute_all conn exec rest local_files remote_files w
      end
  end.

(** The remote snapshot: the listing without the ignored paths. *)
Definition filter_remote (ignore : Ignore.IgnoreRules) (listing : gmap string FileMeta)
    : gmap string FileMeta :=
  filter (fun item => Ignore.should_ignore ignore item.1 = false) listing.

(** The body of the [try]. *)
Definition session (conn : Connection) (env : CycleEnv) (ignore : Ignore.IgnoreRules)
    (local_snapshot : gmap string FileMeta) (last_state : gmap string SyncEntry)
    (dirty : gset string) (w : World) : SessionResult :=
  match env_connect env with
  | Some msg => SessionRaised msg w
  | None =>
      match env_listing env with
      | Raise msg => SessionRaised msg w
      | Ok listing =>
          let remote_snapshot := filter_remote ignore listing in
          let actions := plan_actions conn local_snapshot remote_snapshot last_state dirty in
          let w := match actions with
                   | [] => w
                   | _ => status_callback conn Syncing None w
                   end in
          execute_all conn (env_exec env) actions local_snapshot remote_snapshot w
      end
  end.

(** How a call ends: it returns, or an exception leaves it. *)
Inductive Outcome : Type :=
| Returned
| Propagated (msg : string).

Definition sync_cycle (conn : Connection) (env : CycleEnv) (w : World) : World * Outcome :=
  if env_stop env then (w, Returned)
  else
    match env_ignore_file env with
    | Raise msg => (w, Propagated msg)
    | Ok lines =>
        let ignore := {| Ignore.patterns := Ignore.load_patterns lines |} in
        let w := status_callback conn Syncing None w in
        match scan_local ignore (env_tree env) with
        | Raise msg => (w, Propagated msg)
        | Ok local_snapshot =>
            match env_load env with
            | Some msg => (w, Propagated msg)
            | None =>
                let last_state := load_sync_state (sync_state w) (conn_id conn) in
                let '(dirty, w) := consume_dirty w in
                match session conn env ignore local_snapshot last_state dirty w with
                | SessionRaised exc w =>
                    let w := status_callback conn Error (Some exc) w in
                    let w := add_log conn "error" "" exc w in
                    (w, Returned)
                | SessionDone local_snapshot remote_snapshot w =>
                    let snapshot := build_snapshot local_snapshot remote_snapshot in
                    let w := storage_save conn snapshot w in
                    let w := status_callback conn Running None w in
                    (w, Returned)
                end
            end
        end
    end.

(** *** [run] *)

(** The loop of [run], one element of [cycles] per turn the [while] test lets
    through; the [finally] clause reports [Stopped] whether the loop ended or
    an exception is on its way out. *)
Fixpoint run (conn : Connection) (cycles : list CycleEnv) (w : World) : World * Outcome :=
  match cycles with
  | [] => (status_callback conn Stopped None w, Returned)
  | env :: rest =>
      match sync_cycle conn env w with
      | (w, Returned) => run conn rest w
      | (w, Propagated msg) => (status_callback conn Stopped None w, Propagated msg)
      end
  end.

End Worker.

(** * What the specification says, in the model's terms *)

Import PyStr Storage Ignore Worker.

(** The planned actions whose key is [p]. *)
Definition actions_for (p : string) (actions : list Action) : list Action :=
  filter (fun a : Action => a.2 = p) actions.

(** "Equal": the sizes are identical and the mtimes are at most one second
    apart. *)
Definition files_equal (l r : FileMeta) : Prop :=
  size l = size r /\ (Qabs (mtime l - mtime r) <= 1)%Q.

(** The prior state records [p] with both sides present. *)
Definition prior_both_present (last_state : gmap string SyncEntry) (p : string) : Prop :=
  exists e, last_state !! p = Some e /\ local_exists e = true /\ remote_exists e = true.

(** [sorted(all_paths - dirty)]. *)
Definition sorted_rest (local_files remote_files : gmap string FileMeta)
    (dirty : gset string) : list string :=
  merge_sort String.le (elements ((dom local_files ∪ dom remote_files) ∖ dirty)).

(** The invariant of a sync-state entry. *)
Definition entry_well_formed (e : SyncEntry) : Prop :=
  (local_exists e = true \/ remote_exists e = true)
  /\ (is_Some (local_mtime e) <-> local_exists e = true)
  /\ (is_Some (remote_mtime e) <-> remote_exists e = true).

(** No key of a snapshot is an ignored path. *)
Definition keys_not_ignored (ignore : IgnoreRules) (files : gmap string FileMeta) : Prop :=
  forall k, is_Some (files !! k) -> should_ignore ignore k = false.

(** The exceptions of a cycle that reach its handler: [session_raises ... ran
    msg] when the session open, the remote listing or the execution of an
    action raises [msg], [ran] being the actions run before. *)
Inductive session_raises (conn : Connection) (env : CycleEnv) (ignore : IgnoreRules)
    (local_snapshot : gmap string FileMeta) (last_state : gmap string SyncEntry)
    (dirty : gset string) : list Action -> string -> Prop :=
| raises_open msg :
    env_connect env = Some msg ->
    session_raises conn env ignore local_snapshot last_state dirty [] msg
| raises_listing msg :
    env_connect env = None ->
    env_listing env = Raise msg ->
    session_raises conn env ignore local_snapshot last_state dirty [] msg
| raises_execute listing ran a rest msg :
    env_connect env = None ->
    env_listing env = Ok listing ->
    plan_actions conn local_snapshot (filter_remote ignore listing) last_state dirty
      = ran ++ a :: rest ->
    Forall (fun b => forall m, env_exec env b <> ExecEscapes m) ran ->
    env_exec env a = ExecEscapes msg ->
    session_raises conn env ignore local_snapshot last_state dirty ran msg.

(** The log entry of the cycle's handler. *)
Definition error_entry (conn : Connection) (exc : string) : LogEntry :=
  {| log_connection_id := conn_id conn; log_type := "error"; log_path := "";
     log_message := exc |}.

(** What running the actions [ran] changes when no exception escapes: one
    log entry per action, in order, and nothing else. *)
Definition only_logged (ran : list Action) (w w' : World) : Prop :=
  sync_state w' = sync_state w
  /\ save_calls w' = save_calls w
  /\ status_calls w' = status_calls w
  /\ dirty_paths w' = dirty_paths w
  /\ exists action_logs,
       logs w' = logs w ++ action_logs /\ map log_path action_logs = map snd ran.

(** ** Concrete inputs *)

Definition plain_connection : Connection :=
  {| conn_id := 1; conn_allow_delete := 0; conn_local_priority := 0 |}.

Definition empty_world : World :=
  {| sync_state := []; logs := []; status_calls := []; dirty_paths := ∅; save_calls := 0 |}.

(** A world whose table holds what an earlier cycle of connection 1 saved. *)
Definition synced_world : World :=
  {| sync_state := [ {| row_connection_id := 1; row_path := "b.txt";
                        row_local_exists := 1; row_local_mtime := Some 100%Q;
                        row_remote_exists := 1; row_remote_mtime := Some 100%Q;
                        row_hash := None |} ];
     logs := []; status_calls := []; dirty_paths := {["b.txt"]}; save_calls := 1 |}.

Definition two_local_files : gmap string FileMeta :=
  {[ "a" := {| mtime := 100; size := 10 |}; "b" := {| mtime := 100; size := 10 |} ]}.

(** Scenario S1: the remote copy is newer. *)
Definition s1_local : gmap string FileMeta := {[ "a.txt" := {| mtime := 100; size := 10 |} ]}.
Definition s1_remote : gmap string FileMeta := {[ "a.txt" := {| mtime := 200; size := 10 |} ]}.

(** Scenarios S3 and S4: [b.txt] was on both sides and is gone from the remote. *)
Definition s3_local : gmap string FileMeta := {[ "b.txt" := {| mtime := 100; size := 10 |} ]}.
Definition s3_last_state : gmap string SyncEntry :=
  {[ "b.txt" := {| local_exists := true; local_mtime := Some 100%Q;
                   remote_exists := true; remote_mtime := Some 100%Q; hash := None |} ]}.

(** Scenario S5: the rules [*.log] and [!keep.log] over three local files. *)
Definition s5_ignore : IgnoreRules := {| patterns := ["*.log"; "!keep.log"] |}.
Definition s5_tree : Dir :=
  MkDir [ ("a.log", StatOk {| mtime := 100; size := 1 |});
          ("keep.log", StatOk {| mtime := 100; size := 2 |});
          ("b.txt", StatOk {| mtime := 100; size := 3 |}) ] [].
Definition s5_listing : gmap string FileMeta :=
  {[ "a.log" := {| mtime := 300; size := 7 |}; "c.txt" := {| mtime := 300; size := 8 |} ]}.

(** A cycle in which nothing happens: an empty tree, an empty remote. *)
Definition quiet_env : CycleEnv :=
  {| env_stop := false; env_ignore_file := Ok None; env_tree := MkDir [] [];
     env_load := None; env_connect := None; env_listing := Ok ∅;
     env_exec := fun _ => ExecFails "not reached" |}.

(** Scenario S6: the SFTP session cannot be opened. *)
Definition refused_env : CycleEnv :=
  {| env_stop := false; env_ignore_file := Ok None; env_tree := MkDir [] [];
     env_load := None; env_connect := Some "Connection refused"; env_listing := Ok ∅;
     env_exec := fun _ => ExecFails "not reached" |}.

(** A local file whose [stat] fails with something else than
    [FileNotFoundError]. *)
Definition unreadable_env : CycleEnv :=
  {| env_stop := false; env_ignore_file := Ok None;
     env_tree := MkDir [("secret.txt", StatError "Permission denied")] [];
     env_load := None; env_connect := None; env_listing := Ok ∅;
     env_exec := fun _ => ExecFails "not reached" |}.

(** [load_sync_state] fails. *)
Definition locked_env : CycleEnv :=
  {| env_stop := false; env_ignore_file := Ok None; env_tree := MkDir [] [];
     env_load := Some "database is locked"; env_connect := None; env_listing := Ok ∅;
     env_exec := fun _ => ExecFails "not reached" |}.

(** * Further code and notions

    More of [sync_worker.py]'s behaviour is stated below with the notions
    defined here; [storage.py]'s log and settings tables, the walk of
    [sftp_client.py], [sync_manager.py] and the version order of
    [updater.py] are embedded in modules of their own. *)

(** What a successful or failed action does to the two snapshots at its own
    key: the pair of lookups after it, from the pair before. *)
Definition effect (k : ActionKind) (out : ExecOutcome)
    (lv rv : option FileMeta) : option FileMeta * option FileMeta :=
  match out with
  | ExecOk st =>
      match k with
      | upload => (lv, Some st)
      | download => (Some st, rv)
      | delete_local => (None, rv)
      | delete_remote => (lv, None)
      end
  | _ => (lv, rv)
  end.

(** The log entry [_execute_action] writes for an action. *)
Definition action_entry (conn : Connection) (exec : Action -> ExecOutcome) (a : Action)
    : LogEntry :=
  let entry type message :=
    {| log_connection_id := conn_id conn; log_type := type; log_path := a.2;
       log_message := message |} in
  match exec a with
  | ExecOk _ =>
      match a.1 with
      | upload => entry "upload" "Uploaded to remote host"
      | download => entry "download" "Downloaded from remote host"
      | delete_local => entry "delete_local" "Removed local file after remote delete"
      | delete_remote => entry "delete_remote" "Removed remote file after local delete"
      end
  | ExecFails msg => entry "error" msg
  | ExecEscapes msg => entry "error" msg
  end.

(** The world a session ends in. *)
Definition session_world (res : SessionResult) : World :=
  match res with
  | SessionRaised _ w => w
  | SessionDone _ _ w => w
  end.

(** Nothing is taken back: both the log and the status calls only grow. *)
Definition grows (w w' : World) : Prop :=
  logs w `prefix_of` logs w' /\ status_calls w `prefix_of` status_calls w'.

(** The key of the [UNIQUE(connection_id, path)] constraint. *)
Definition row_key (row : Row) : Z * string := (row_connection_id row, row_path row).

Module Logs.

(** SQLite's [LIMIT n]: a negative [n] is no limit. *)
Definition sql_limit {A} (limit : Z) (rows : list A) : list A :=
  if (limit <? 0)%Z then rows else take (Z.to_nat limit) rows.

(** [get_logs]: the rows of the connection, [ORDER BY id DESC], limited. The
    rows of the model's table stand in the order of their ids. *)
Definition get_logs (table : list LogEntry) (connection_id : Z) (limit : Z) : list LogEntry :=
  sql_limit limit
    (reverse (List.filter (fun e => (log_connection_id e =? connection_id)%Z) table)).

End Logs.

Module Settings.

(** A value of the settings: what [json.loads] returns for what
    [json.dumps] wrote, for the integers, booleans and strings the
    application stores. *)
Inductive SettingValue : Type :=
| SInt (n : Z)
| SBool (b : bool)
| SStr (s : string).

Definition _DEFAULT_SETTINGS : gmap string SettingValue :=
  {[ "web_port" := SInt 8000; "autostart" := SBool true; "log_path" := SStr "logs";
     "language" := SStr "ru"; "update_feed" := SStr "" ]}.

(** [get_settings]: the defaults, updated with the stored rows. *)
Definition get_settings (table : gmap string SettingValue) : gmap string SettingValue :=
  foldl (fun merged item => <[item.1 := item.2]> merged) _DEFAULT_SETTINGS (map_to_list table).

(** [update_settings]: one [INSERT ... ON CONFLICT(key) DO UPDATE] per item. *)
Definition update_settings (values table : gmap string SettingValue)
    : gmap string SettingValue :=
  foldl (fun table item => <[item.1 := item.2]> table) table (map_to_list values).

End Settings.

Module Updater.

(** [s.split(sep)] for a one-character [sep]. *)
Fixpoint split_go (sep : ascii) (cur s : string) : list string :=
  match s with
  | EmptyString => [cur]
  | String c s' =>
      if bool_decide (c = sep) then cur :: split_go sep EmptyString s'
      else split_go sep (cur +:+ String c EmptyString) s'
  end.
Definition split (sep : ascii) (s : string) : list string := split_go sep EmptyString s.

(** The loop over [zip(a_parts, b_parts)]. *)
Fixpoint compare_loop (pairs : list (Z * Z)) : Z :=
  match pairs with
  | [] => 0
  | (a, b) :: rest =>
      if (b <? a)%Z then 1
      else if (a <? b)%Z then -1
      else compare_loop rest
  end.

(** The body of [_compare_versions] once both versions are parsed. *)
Definition compare_parts (a_parts b_parts : list Z) : Z :=
  let max_len := Nat.max (length a_parts) (length b_parts) in
  let a_parts := a_parts ++ repeat 0%Z (max_len - length a_parts) in
  let b_parts := b_parts ++ repeat 0%Z (max_len - length b_parts) in
  compare_loop (zip a_parts b_parts).

Section versions.

(** Python's [int(part)], [None] when it raises [ValueError]. *)
Variable py_int : string -> option Z.

(** [normalize]: [[int(part) for part in v.split(".")]]. *)
Definition normalize (v : string) : option (list Z) := mapM py_int (split "."%char v).

(** [_compare_versions], [None] when a part of a version is not a number. *)
Definition _compare_versions (version_a version_b : string) : option Z :=
  match normalize version_a with
  | None => None
  | Some a_parts =>
      match normalize version_b with
      | None => None
      | Some b_parts => Some (compare_parts a_parts b_parts)
      end
  end.

End versions.

(** [int] on a non-empty string of the digits 0 to 9. *)
Fixpoint digits_go (acc : Z) (s : string) : option Z :=
  match s with
  | EmptyString => Some acc
  | String c s' =>
      let n := N_of_ascii c in
      if ((48 <=? n) && (n <=? 57))%N then digits_go (10 * acc + Z.of_N (n - 48)) s'
      else None
  end.
Definition digits_int (s : string) : option Z :=
  match s with
  | EmptyString => None
  | _ => digits_go 0 s
  end.

End Updater.

(** A part that is missing counts as zero. *)
Definition part (parts : list Z) (i : nat) : Z := nth i parts 0%Z.

Module Manager.

(** The columns of a [connections] row the manager reads or writes. *)
Record ConnectionRow : Type := {
  cn_enabled : Z;
  cn_status : string;
  cn_last_error : option string;
}.

(** A [SyncWorker] as the manager sees it: whether its thread is alive, and
    its two events. *)
Record WorkerHandle : Type := {
  wh_alive : bool;
  wh_stop_event : bool;
  wh_wake_event : bool;
}.

(** The manager's [workers] dictionary and the [connections] table of its
    storage. *)
Record State : Type := {
  connections : gmap Z ConnectionRow;
  workers : gmap Z WorkerHandle;
}.

(** [worker.trigger_sync()]. *)
Definition trigger_sync (worker : WorkerHandle) : WorkerHandle :=
  {| wh_alive := wh_alive worker; wh_stop_event := wh_stop_event worker;
     wh_wake_event := true |}.

(** [storage.update_status]: an [UPDATE ... WHERE id = ?]. *)
Definition update_status (connection_id : Z) (status : string) (last_error : option string)
    (s : State) : State :=
  {| connections :=
       alter (fun row => {| cn_enabled := cn_enabled row; cn_status := status;
                            cn_last_error := last_error |})
             connection_id (connections s);
     workers := workers s |}.

(** [_spawn_worker]: no worker without a row; otherwise a started thread. *)
Definition _spawn_worker (s : State) (connection_id : Z) : option WorkerHandle :=
  match connections s !! connection_id with
  | None => None
  | Some _ => Some {| wh_alive := true; wh_stop_event := false; wh_wake_event := false |}
  end.

Definition set_worker (connection_id : Z) (worker : WorkerHandle) (s : State) : State :=
  {| connections := connections s; workers := <[connection_id := worker]> (workers s) |}.

Definition start_connection (s : State) (connection_id : Z) : State * bool :=
  match workers s !! connection_id with
  | Some worker =>
      if negb (wh_alive worker) then
        match _spawn_worker s connection_id with
        | None => (s, false)
        | Some worker => (set_worker connection_id (trigger_sync worker) s, true)
        end
      else (set_worker connection_id (trigger_sync worker) s, true)
  | None =>
      match _spawn_worker s connection_id with
      | None => (s, false)
      | Some worker => (set_worker connection_id worker s, true)
      end
  end.

(** [stop_connection]: the worker leaves the dictionary; if there was one it
    is asked to stop and joined, and the row is set to [Stopped]. *)
Definition stop_connection (s : State) (connection_id : Z) : State :=
  match workers s !! connection_id with
  | None => s
  | Some _ =>
      update_status connection_id "Stopped" None
        {| connections := connections s; workers := delete connection_id (workers s) |}
  end.

Definition sync_now (s : State) (connection_id : Z) : State :=
  match workers s !! connection_id with
  | Some worker => set_worker connection_id (trigger_sync worker) s
  | None => (start_connection s connection_id).1
  end.

Definition refresh_connection (s : State) (connection_id : Z) : State :=
  let s := stop_connection s connection_id in
  match connections s !! connection_id with
  | Some conn =>
      if bool_of_int (cn_enabled conn) then (start_connection s connection_id).1 else s
  | None => s
  end.

Definition remove_connection (s : State) (connection_id : Z) : State :=
  let s := stop_connection s connection_id in
  {| connections := delete connection_id (connections s); workers := workers s |}.

(** [_handle_status], the workers' status callback. *)
Definition _handle_status (s : State) (connection_id : Z) (status : string)
    (error : option string) : State :=
  let s := update_status connection_id status error s in
  if bool_decide (status = "Stopped") then
    match workers s !! connection_id with
    | Some worker =>
        if negb (wh_alive worker)
        then {| connections := connections s; workers := delete connection_id (workers s) |}
        else s
    | None => s
    end
  else s.

(** The order of the ids. *)
Definition by_id (a b : Z * ConnectionRow) : Prop := (a.1 <= b.1)%Z.

Global Instance by_id_dec : RelDecision by_id.
Proof. intros a b. unfold by_id. apply _. Defined.

(** [list_connections]: the rows with their ids, [ORDER BY id DESC]. *)
Definition list_connections (s : State) : list (Z * ConnectionRow) :=
  reverse (merge_sort by_id (map_to_list (connections s))).

(** [start_all]: [start_connection] for every listed row that is enabled. *)
Definition start_all (s : State) : State :=
  foldl (fun s conn =>
           if bool_of_int (cn_enabled conn.2) then (start_connection s conn.1).1 else s)
        s (list_connections s).

(** [stop_all]: [stop_connection] for every key of [workers], here in the
    order of the ids; [foldl_stop_connection] below holds for every order. *)
Definition stop_all (s : State) : State :=
  foldl stop_connection s (elements (dom (workers s))).

End Manager.

(** The first character of a string, if any, is none of [chars]. *)
Definition starts_clean (chars : string) (s : string) : Prop :=
  match s with
  | EmptyString => True
  | String c _ => in_chars c chars = false
  end.

(** No key begins with a dot or a slash. *)
Definition keys_clean (files : gmap string FileMeta) : Prop :=
  forall k, is_Some (files !! k) -> starts_clean "./" k.

Module Sftp.

(** What [listdir_attr] reports for one name: a regular file (anything that
    is not [S_ISDIR]) with the [st_mtime] and [st_size] the server sent, or a
    directory with what listing it in turn gives. *)
Local Unset Elimination Schemes.
Inductive RemoteEntry : Type :=
| RemoteFile (filename : string) (st_mtime st_size : Z)
| RemoteDir (filename : string) (listing : result (list RemoteEntry)).
Local Set Elimination Schemes.

(** [rel / entry.filename], as a string. *)
Definition rel_join (rel filename : string) : string :=
  if bool_decide (rel = "") then filename else rel +:+ "/" +:+ filename.

(** [_walk]: the entries of a directory in the server's order; a file is
    recorded under its relative path, a directory is walked. *)
Fixpoint walk_entry (rel : string) (entry : RemoteEntry) (files : gmap string FileMeta)
    {struct entry} : result (gmap string FileMeta) :=
  match entry with
  | RemoteFile filename st_mtime st_size =>
      Ok (<[rel_join rel filename := {| mtime := inject_Z st_mtime; size := st_size |}]> files)
  | RemoteDir filename listing =>
      match listing with
      | Raise msg => Raise msg
      | Ok entries =>
          (fix walk_entries (entries : list RemoteEntry) (files : gmap string FileMeta)
             : result (gmap string FileMeta) :=
             match entries with
             | [] => Ok files
             | entry :: rest =>
                 match walk_entry (rel_join rel filename) entry files with
                 | Raise msg => Raise msg
                 | Ok files => walk_entries rest files
                 end
             end) entries files
      end
  end.

Fixpoint walk_entries (rel : string) (entries : list RemoteEntry)
    (files : gmap string FileMeta) : result (gmap string FileMeta) :=
  match entries with
  | [] => Ok files
  | entry :: rest =>
      match walk_entry rel entry files with
      | Raise msg => Raise msg
      | Ok files => walk_entries rel rest files
      end
  end.

(** [list_recursive]: refused without a session; then [_ensure_base] (which
    may raise [ensure_error]), then the walk of the base directory. *)
Definition list_recursive (connected : bool) (ensure_error : option string)
    (base_listing : result (list RemoteEntry)) : result (gmap string FileMeta) :=
  if negb connected then Raise "SFTP session is not connected"
  else match ensure_error with
       | Some msg => Raise msg
       | None =>
           match base_listing with
           | Raise msg => Raise msg
           | Ok entries => walk_entries "" entries ∅
           end
       end.

End Sftp.

(** The regular files of a remote tree, each with its relative path. *)
Inductive file_in : list Sftp.RemoteEntry -> string -> string -> FileMeta -> Prop :=
| file_here entries rel filename st_mtime st_size :
    Sftp.RemoteFile filename st_mtime st_size ∈ entries ->
    file_in entries rel (Sftp.rel_join rel filename)
            {| mtime := inject_Z st_mtime; size := st_size |}
| file_below entries rel filename sub k meta :
    Sftp.RemoteDir filename (Ok sub) ∈ entries ->
    file_in sub (Sftp.rel_join rel filename) k meta ->
    file_in entries rel k meta.

(** * Properties *)

(** ** The glob matcher and the ignore rules on examples *)

Example fnmatch_ex1 : Fnmatch.fnmatch "a.log" "*.log" = true. Proof. reflexivity. Qed.
Example fnmatch_ex2 : Fnmatch.fnmatch "sub/foo.txt" "foo.txt" = false. Proof. reflexivity. Qed.
Example fnmatch_ex3 : Fnmatch.fnmatch "b" "[a-c]" = true. Proof. reflexivity. Qed.
Example fnmatch_ex4 : Fnmatch.fnmatch "d" "[!a-c]" = true. Proof. reflexivity. Qed.
Example fnmatch_ex5 : Fnmatch.fnmatch "-" "[a-]" = true. Proof. reflexivity. Qed.
Example fnmatch_ex6 : Fnmatch.fnmatch "[x" "[x" = true. Proof. reflexivity. Qed.
Example fnmatch_ex7 : Fnmatch.fnmatch "q" "[z-a!]" = true. Proof. reflexivity. Qed.
Example fnmatch_ex8 : Fnmatch.fnmatch "a--" "[a--]" = false. Proof. reflexivity. Qed.
Example fnmatch_ex9 : Fnmatch.fnmatch "a" "[a--]" = false. Proof. reflexivity. Qed.
Example fnmatch_ex10 : Fnmatch.fnmatch "ab/cd.py" "a*.p?" = true. Proof. reflexivity. Qed.
Example should_ignore_ex1 :
  map (Ignore.should_ignore {| Ignore.patterns := ["*.log"; "!keep.log"] |})
      ["a.log"; "keep.log"; "b.txt"; "./x/y.log"; "x\keep.log"] = [true; false; false; true; false].
Proof. reflexivity. Qed.
Example load_patterns_ex :
  Ignore.load_patterns (Some ["  *.log "; ""; "# c"; "!keep.log"; "   "]) = ["*.log"; "!keep.log"].
Proof. reflexivity. Qed.

(** ** The sync-state table: saving, then loading *)

Lemma entry_of_row_of connection_id path meta :
  entry_of (row_of connection_id (path, meta)) = meta.
Proof. destruct meta as [[] ? [] ? ?]; reflexivity. Qed.

Lemma save_sync_state_rows table connection_id entries :
  save_sync_state table connection_id entries =
  List.filter (fun row => negb (of_connection connection_id row)) table
  ++ map (row_of connection_id) (map_to_list entries).
Proof.
  unfold save_sync_state.
  generalize (List.filter (fun row => negb (of_connection connection_id row)) table).
  induction (map_to_list entries) as [|item items IH]; intros kept; simpl.
  - by rewrite app_nil_r.
  - rewrite IH. by rewrite <- app_assoc.
Qed.

Lemma filter_other_connections table connection_id :
  List.filter (of_connection connection_id)
    (List.filter (fun row => negb (of_connection connection_id row)) table) = [].
Proof.
  induction table as [|row table IH]; simpl; [done|].
  destruct (of_connection connection_id row) eqn:E; simpl; [done|].
  by rewrite E.
Qed.

Lemma filter_own_rows connection_id (items : list (string * SyncEntry)) :
  List.filter (of_connection connection_id) (map (row_of connection_id) items)
  = map (row_of connection_id) items.
Proof.
  induction items as [|[path meta] items IH]; simpl; [done|].
  unfold of_connection at 1. simpl. rewrite Z.eqb_refl. by rewrite IH.
Qed.

(** Loading rows written from a dictionary: each key reads back its entry. *)
Lemma load_rows_lookup connection_id (items : list (string * SyncEntry))
    (result : gmap string SyncEntry) (k : string) :
  NoDup items.*1 ->
  foldl (fun result row => <[row_path row := entry_of row]> result) result
        (map (row_of connection_id) items) !! k
  = match (list_to_map items : gmap string SyncEntry) !! k with
    | Some e => Some e
    | None => result !! k
    end.
Proof.
  revert result. induction items as [|[path meta] items IH]; intros result Hnd.
  - simpl. by rewrite lookup_empty.
  - apply NoDup_cons in Hnd as [Hnotin Hnd].
    cbn [map foldl]. rewrite IH by done.
    change (row_path (row_of connection_id (path, meta))) with path.
    rewrite entry_of_row_of. cbn [list_to_map foldr uncurry].
    destruct (decide (path = k)) as [->|Hne].
    + rewrite lookup_insert_eq.
      rewrite (not_elem_of_list_to_map_1 _ k); [|done].
      by rewrite lookup_insert_eq.
    + rewrite !(lookup_insert_ne _ path k) by done. done.
Qed.

(** C9. For every table, connection id and sync-state map, [save_sync_state]
    followed by [load_sync_state] for that connection returns the map that
    was saved: the same paths, and for each path the same fields. *)
Theorem save_then_load_sync_state (table : list Row) (connection_id : Z)
    (entries : gmap string SyncEntry) :
  load_sync_state (save_sync_state table connection_id entries) connection_id = entries.
Proof.
  apply map_eq. intros k. unfold load_sync_state.
  rewrite save_sync_state_rows, List.filter_app, filter_other_connections, filter_own_rows.
  simpl. rewrite load_rows_lookup by apply NoDup_fst_map_to_list.
  rewrite list_to_map_to_list, lookup_empty. by destruct (entries !! k).
Qed.


(** ** Ignore rules: a pattern with a leading slash *)

Lemma should_ignore_snoc (pats : list string) (pattern path : string) :
  should_ignore {| patterns := pats ++ [pattern] |} path
  = apply_pattern (normalize path) (should_ignore {| patterns := pats |} path) pattern.
Proof. unfold should_ignore. simpl. by rewrite foldl_app. Qed.

(** The effect of one pattern with a leading slash, wherever it stands in
    the list: [negate] is false, the slashes are stripped, and the rest is a
    prefix test or a glob on the path and on the basename. *)
Lemma apply_leading_slash_pattern (rel rule : string) (matched : bool) :
  apply_pattern rel matched (String "/" rule)
  = let rest := lstrip "/" rule in
    if endswith_char "/" rest then
      if startswith (rstrip "/" rest) rel then true else matched
    else
      if Fnmatch.fnmatch rel rest || Fnmatch.fnmatch (last_segment "/" rel) rest then true
      else matched.
Proof.
  unfold apply_pattern. cbv zeta.
  change (startswith "!" (String "/" rule)) with false. cbv iota.
  change (startswith "/" (String "/" rule)) with true. cbv iota.
  change (lstrip "/" (String "/" rule)) with (lstrip "/" rule).
  cbn [negb].
  destruct (endswith_char "/" (lstrip "/" rule)); [|reflexivity].
  by destruct (startswith _ _).
Qed.

(** C8, as the code has it. A pattern that begins with [/] has its leading
    slashes stripped and is then matched like any other: a rest that ends in
    [/] is a prefix test on the relative path; otherwise the rest is a glob
    tried on the full relative path and on the basename, and either hit makes
    the rule apply. *)
Theorem leading_slash_pattern_matches_path_and_basename
    (pats : list string) (rule path : string) :
  should_ignore {| patterns := pats ++ [String "/" rule] |} path
  = let rest := lstrip "/" rule in
    let rel := normalize path in
    if endswith_char "/" rest then
      if startswith (rstrip "/" rest) rel then true
      else should_ignore {| patterns := pats |} path
    else
      if Fnmatch.fnmatch rel rest || Fnmatch.fnmatch (last_segment "/" rel) rest then true
      else should_ignore {| patterns := pats |} path.
Proof. rewrite should_ignore_snoc. apply apply_leading_slash_pattern. Qed.

(** C8 as stated fails: under the single rule [/foo.txt] the path
    [sub/foo.txt], whose full relative path does not match [foo.txt] and
    whose basename does, is ignored, and it is not without the rule. *)
Lemma leading_slash_pattern_hits_basename :
  Fnmatch.fnmatch "sub/foo.txt" "foo.txt" = false
  /\ Fnmatch.fnmatch (last_segment "/" "sub/foo.txt") "foo.txt" = true
  /\ should_ignore {| patterns := [] |} "sub/foo.txt" = false
  /\ should_ignore {| patterns := ["/foo.txt"] |} "sub/foo.txt" = true.
Proof. repeat split; reflexivity. Qed.

(** ** The planner *)

Lemma foldl_append_flat_map {A B} (f : A -> list B) (l : list A) (init : list B) :
  foldl (fun acc x => acc ++ f x) init l = init ++ flat_map f l.
Proof.
  revert init. induction l as [|x l IH]; intros init; simpl.
  - by rewrite app_nil_r.
  - rewrite IH. by rewrite <- app_assoc.
Qed.

Lemma filter_all {A} (P : A -> Prop) `{!forall x, Decision (P x)} (l : list A) :
  Forall P l -> filter P l = l.
Proof.
  induction 1 as [|x l Hx _ IH]; [done|]. by rewrite filter_cons_True, IH.
Qed.

Lemma filter_none {A} (P : A -> Prop) `{!forall x, Decision (P x)} (l : list A) :
  Forall (fun x => ~ P x) l -> filter P l = [].
Proof.
  induction 1 as [|x l Hx _ IH]; [done|]. by rewrite filter_cons_False, IH.
Qed.

(** When [f q] only yields items keyed by [q], the items keyed by [p] in the
    concatenation over a duplicate-free list are those of [f p]. *)
Lemma filter_flat_map_key {A} (f : string -> list (A * string)) (l : list string) (p : string) :
  (forall q a, a ∈ f q -> a.2 = q) -> NoDup l ->
  filter (fun a : A * string => a.2 = p) (flat_map f l) = if decide (p ∈ l) then f p else [].
Proof.
  intros Hkey. induction 1 as [|q l Hq Hnd IH].
  - by destruct (decide (p ∈ [])) as [?%elem_of_nil|].
  - cbn [flat_map]. rewrite filter_app, IH. destruct (decide (q = p)) as [->|Hne].
    + rewrite (decide_False (P := p ∈ l)) by done.
      rewrite (decide_True (P := p ∈ p :: l)) by left.
      rewrite app_nil_r. apply filter_all, Forall_forall. intros a Ha. by apply Hkey.
    + assert (filter (fun a : A * string => a.2 = p) (f q) = []) as ->.
      { apply filter_none, Forall_forall. intros a Ha Hp. apply Hne.
        rewrite <- Hp. symmetry. by apply Hkey. }
      cbn [app]. destruct (decide (p ∈ l)) as [Hin|Hout].
      * rewrite (decide_True (P := p ∈ q :: l)); [done|]. by right.
      * rewrite (decide_False (P := p ∈ q :: l)); [done|].
        rewrite elem_of_cons. intros [?|?]; congruence.
Qed.

Section planner.

Variable conn : Connection.
Variables local_files remote_files : gmap string FileMeta.
Variable last_state : gmap string SyncEntry.

Local Abbreviation plan_of := (plan_path conn local_files remote_files last_state).

Lemma plan_actions_flat_map dirty :
  plan_actions conn local_files remote_files last_state dirty
  = flat_map plan_of (ordered local_files remote_files dirty).
Proof. unfold plan_actions. by rewrite foldl_append_flat_map. Qed.

Lemma plan_path_key p a : a ∈ plan_of p -> a.2 = p.
Proof.
  unfold plan_path. intros Ha.
  repeat match type of Ha with
         | context [match ?x with _ => _ end] => destruct x
         end;
    repeat match goal with
           | H : _ ∈ [] |- _ => by apply elem_of_nil in H
           | H : _ ∈ [_] |- _ => apply list_elem_of_singleton in H; subst
           end; done.
Qed.

Lemma plan_path_absent p :
  local_files !! p = None -> remote_files !! p = None -> plan_of p = [].
Proof. unfold plan_path. by intros -> ->. Qed.

Lemma elem_of_sorted_rest dirty p :
  p ∈ sorted_rest local_files remote_files dirty
  <-> p ∈ (dom local_files ∪ dom remote_files : gset string) /\ p ∉ dirty.
Proof.
  unfold sorted_rest. rewrite merge_sort_Permutation, elem_of_elements. set_solver.
Qed.

Lemma NoDup_sorted_rest dirty : NoDup (sorted_rest local_files remote_files dirty).
Proof. unfold sorted_rest. rewrite merge_sort_Permutation. apply NoDup_elements. Qed.

Lemma NoDup_ordered dirty : NoDup (ordered local_files remote_files dirty).
Proof.
  unfold ordered. apply NoDup_app. split; [apply NoDup_elements|]. split.
  - intros p Hp Hq. apply elem_of_elements in Hp.
    apply (elem_of_sorted_rest dirty p) in Hq. tauto.
  - apply NoDup_sorted_rest.
Qed.

Lemma elem_of_ordered dirty p :
  p ∈ (dom local_files ∪ dom remote_files : gset string) ->
  p ∈ ordered local_files remote_files dirty.
Proof.
  intros Hd. unfold ordered. apply elem_of_app. destruct (decide (p ∈ dirty)).
  - left. by apply elem_of_elements.
  - right. by apply elem_of_sorted_rest.
Qed.

(** Whatever the dirty set, the planned actions keyed by a path are what the
    loop body appends for it: every path is visited at most once, and a path
    that is not visited is on neither side. *)
Lemma actions_for_plan dirty p :
  actions_for p (plan_actions conn local_files remote_files last_state dirty) = plan_of p.
Proof.
  unfold actions_for. rewrite plan_actions_flat_map. unfold Action.
  rewrite (filter_flat_map_key (A:=ActionKind) plan_of _ p);
    [|apply plan_path_key|apply NoDup_ordered].
  case_decide as Hin; [done|]. symmetry. apply plan_path_absent.
  - apply not_elem_of_dom. intros Hd. apply Hin, elem_of_ordered. set_solver.
  - apply not_elem_of_dom. intros Hd. apply Hin, elem_of_ordered. set_solver.
Qed.

Lemma elem_of_flat_map_plan (l : list string) a : a ∈ flat_map plan_of l -> a.2 ∈ l.
Proof.
  intros Hin. apply list_elem_of_In, in_flat_map in Hin as (q & Hq & Ha).
  apply list_elem_of_In in Hq, Ha. by rewrite (plan_path_key _ _ Ha).
Qed.

End planner.

Lemma files_differ_false l r : files_differ l r = false <-> files_equal l r.
Proof.
  unfold files_differ, files_equal, Qlt_bool. rewrite orb_false_iff, negb_false_iff.
  rewrite Qle_bool_iff, Z.ltb_ge. split; intros [Hs Ht]; (split; [lia|done]).
Qed.

Lemma files_differ_true l r : files_differ l r = true <-> ~ files_equal l r.
Proof.
  rewrite <- files_differ_false. destruct (files_differ l r); split; congruence.
Qed.

Lemma prev_both_spec last_state p :
  prev_both (last_state !! p) = true <-> prior_both_present last_state p.
Proof.
  unfold prev_both, prior_both_present. split.
  - destruct (last_state !! p) as [e|]; [|done].
    intros [??]%andb_true_iff. by exists e.
  - intros (e & -> & -> & ->). done.
Qed.

(** C1. For a path present in both snapshots the planner emits no action
    when the files are equal (same size, mtimes at most one second apart);
    when they are not equal it emits [upload] if [local_priority] is set or
    the local mtime is at least the remote one, and [download] otherwise. *)
Theorem plan_both_present (conn : Connection) (local_files remote_files : gmap string FileMeta)
    (last_state : gmap string SyncEntry) (dirty : gset string)
    (p : string) (l r : FileMeta) :
  local_files !! p = Some l ->
  remote_files !! p = Some r ->
  let planned := actions_for p (plan_actions conn local_files remote_files last_state dirty) in
  (files_equal l r -> planned = [])
  /\ (~ files_equal l r ->
      local_priority conn = true \/ (mtime r <= mtime l)%Q -> planned = [(upload, p)])
  /\ (~ files_equal l r ->
      local_priority conn = false -> (mtime l < mtime r)%Q -> planned = [(download, p)]).
Proof.
  intros Hl Hr planned. subst planned. rewrite actions_for_plan.
  unfold plan_path. rewrite Hl, Hr. repeat split.
  - intros Heq%files_differ_false. by rewrite Heq.
  - intros Hne%files_differ_true Hup. rewrite Hne.
    destruct Hup as [-> | Hle]; [done|].
    apply Qle_bool_iff in Hle. rewrite Hle. by rewrite orb_true_r.
  - intros Hne%files_differ_true -> Hlt. rewrite Hne.
    destruct (Qle_bool (mtime r) (mtime l)) eqn:E; [|done].
    apply Qle_bool_iff in E. by apply Qle_not_lt in E.
Qed.

(** Scenario S1 through C1: the remote copy is newer and wins. *)
Lemma plan_both_present_s1 :
  actions_for "a.txt" (plan_actions plain_connection s1_local s1_remote ∅ ∅)
  = [(download, "a.txt")].
Proof.
  refine (proj2 (proj2 (plan_both_present plain_connection s1_local s1_remote ∅ ∅ "a.txt"
                          {| mtime := 100; size := 10 |} {| mtime := 200; size := 10 |}
                          _ _)) _ _ _).
  - vm_compute. reflexivity.
  - vm_compute. reflexivity.
  - intros [_ Hclose]. vm_compute in Hclose. apply Hclose. reflexivity.
  - reflexivity.
  - reflexivity.
Defined.

(** Scenario S2: the same files, and [local_priority] makes it an upload. *)
Example plan_s2 :
  plan_actions {| conn_id := 1; conn_allow_delete := 0; conn_local_priority := 1 |}
    s1_local s1_remote ∅ ∅ = [(upload, "a.txt")].
Proof. vm_compute. reflexivity. Qed.

(** Equal sizes and mtimes half a second apart: nothing to do; a tie on the
    mtime with different sizes: the local side wins. *)
Example plan_near_tie :
  plan_actions plain_connection
    {[ "a" := {| mtime := 201 # 2; size := 10 |}; "b" := {| mtime := 100; size := 10 |} ]}
    {[ "a" := {| mtime := 100; size := 10 |}; "b" := {| mtime := 100; size := 11 |} ]}
    ∅ ∅ = [(upload, "b")].
Proof. vm_compute. reflexivity. Qed.

(** C2. For a path present only locally the planner emits [delete_local]
    exactly when the prior state records both sides present and
    [allow_delete] is set, and [upload] in every other case (no prior
    record, one side only, or deletions not allowed); for a path present
    only remotely, the same with [delete_remote] and [download]. *)
Theorem plan_one_side_present (conn : Connection) (local_files remote_files : gmap string FileMeta)
    (last_state : gmap string SyncEntry) (dirty : gset string) (p : string) :
  let planned := actions_for p (plan_actions conn local_files remote_files last_state dirty) in
  (is_Some (local_files !! p) -> remote_files !! p = None ->
     (planned = [(delete_local, p)]
        <-> prior_both_present last_state p /\ allow_delete conn = true)
     /\ (~ (prior_both_present last_state p /\ allow_delete conn = true)
        -> planned = [(upload, p)]))
  /\ (local_files !! p = None -> is_Some (remote_files !! p) ->
     (planned = [(delete_remote, p)]
        <-> prior_both_present last_state p /\ allow_delete conn = true)
     /\ (~ (prior_both_present last_state p /\ allow_delete conn = true)
        -> planned = [(download, p)])).
Proof.
  intros planned. subst planned. rewrite actions_for_plan. unfold plan_path.
  rewrite <- prev_both_spec.
  split.
  - intros [l ->] ->.
    destruct (prev_both (last_state !! p)), (allow_delete conn);
      (split; [split|]); intros; try done; intuition congruence.
  - intros -> [r ->].
    destruct (prev_both (last_state !! p)), (allow_delete conn);
      (split; [split|]); intros; try done; intuition congruence.
Qed.

(** Scenarios S3 and S4: the remote copy of [b.txt] was deleted; the local
    one is deleted when deletions are allowed and uploaded again when not. A
    prior record with one side only makes it an upload in both cases. *)
Example plan_s3 :
  plan_actions {| conn_id := 1; conn_allow_delete := 1; conn_local_priority := 0 |}
    s3_local ∅ s3_last_state ∅ = [(delete_local, "b.txt")].
Proof. vm_compute. reflexivity. Qed.

Example plan_s4 :
  plan_actions plain_connection s3_local ∅ s3_last_state ∅ = [(upload, "b.txt")].
Proof. vm_compute. reflexivity. Qed.

Example plan_one_sided_prior :
  plan_actions {| conn_id := 1; conn_allow_delete := 1; conn_local_priority := 0 |}
    s3_local ∅
    {[ "b.txt" := {| local_exists := true; local_mtime := Some 100%Q;
                     remote_exists := false; remote_mtime := None; hash := None |} ]}
    ∅ = [(upload, "b.txt")].
Proof. vm_compute. reflexivity. Qed.

(** C3. When the connection's [allow_delete] flag is false, the planned
    list holds no [delete_local] and no [delete_remote] action, whatever the
    snapshots, the prior state and the dirty set. *)
Theorem no_delete_without_allow_delete (conn : Connection)
    (local_files remote_files : gmap string FileMeta)
    (last_state : gmap string SyncEntry) (dirty : gset string) (p : string) :
  allow_delete conn = false ->
  ((delete_local, p) ∉ plan_actions conn local_files remote_files last_state dirty)
  /\ ((delete_remote, p) ∉ plan_actions conn local_files remote_files last_state dirty).
Proof.
  intros Hno.
  assert (forall k, k = delete_local \/ k = delete_remote ->
            (k, p) ∉ plan_actions conn local_files remote_files last_state dirty) as Hk.
  { intros k Hk Hin.
    assert ((k, p) ∈ actions_for p
              (plan_actions conn local_files remote_files last_state dirty)) as Hin'.
    { unfold actions_for. apply list_elem_of_filter. by split. }
    rewrite actions_for_plan in Hin'. unfold plan_path in Hin'. rewrite Hno in Hin'.
    repeat match type of Hin' with
           | context [match ?x with _ => _ end] => destruct x
           end;
      repeat match goal with
             | H : _ ∈ [] |- _ => by apply elem_of_nil in H
             | H : _ ∈ [_] |- _ => apply list_elem_of_singleton in H
             end; destruct Hk; congruence. }
  split; apply Hk; auto.
Qed.

(** Scenario S4 through C3: deletions are not allowed, [b.txt] is not
    deleted. *)
Lemma no_delete_without_allow_delete_s4 :
  ((delete_local, "b.txt") ∉ plan_actions plain_connection s3_local ∅ s3_last_state ∅)
  /\ ((delete_remote, "b.txt") ∉ plan_actions plain_connection s3_local ∅ s3_last_state ∅).
Proof.
  apply (no_delete_without_allow_delete plain_connection s3_local ∅ s3_last_state ∅ "b.txt").
  reflexivity.
Defined.

(** C6, as the code has it. The planner visits the dirty paths first, in
    the order the dirty set enumerates them, then the remaining paths of the
    two snapshots in sorted order; so every action of a dirty path comes
    before every action of a path that is not dirty. *)
Theorem plan_dirty_first_then_sorted (conn : Connection)
    (local_files remote_files : gmap string FileMeta)
    (last_state : gmap string SyncEntry) (dirty : gset string) :
  let plan := plan_actions conn local_files remote_files last_state dirty in
  let plan_of := plan_path conn local_files remote_files last_state in
  let rest := sorted_rest local_files remote_files dirty in
  plan = flat_map plan_of (elements dirty) ++ flat_map plan_of rest
  /\ StronglySorted String.le rest
  /\ NoDup rest
  /\ (forall p, p ∈ rest <-> p ∈ (dom local_files ∪ dom remote_files : gset string) /\ p ∉ dirty)
  /\ (forall i j a b,
        plan !! i = Some a -> plan !! j = Some b -> a.2 ∈ dirty -> b.2 ∉ dirty ->
        (i < j)%nat).
Proof.
  intros plan plan_of rest.
  assert (plan = flat_map plan_of (elements dirty) ++ flat_map plan_of rest) as Hplan.
  { subst plan. rewrite plan_actions_flat_map. unfold ordered. apply flat_map_app. }
  split; [done|]. split; [apply (StronglySorted_merge_sort _)|].
  split; [apply NoDup_sorted_rest|]. split; [apply elem_of_sorted_rest|].
  intros i j a b Ha Hb Hda Hdb. rewrite Hplan in Ha, Hb.
  apply lookup_app_Some in Ha as [Ha|[_ Ha]].
  - apply lookup_app_Some in Hb as [Hb|[Hj _]].
    + apply list_elem_of_lookup_2, elem_of_flat_map_plan, elem_of_elements in Hb. done.
    + apply lookup_lt_Some in Ha. lia.
  - apply list_elem_of_lookup_2, elem_of_flat_map_plan, elem_of_sorted_rest in Ha. tauto.
Qed.

(** C6 as stated fails: the dirty set keeps no insertion order. Marking [b]
    and then [a] dirty plans [a] before [b], and so does marking [a] and
    then [b]: the two dirty sets are the same set. *)
Lemma plan_dirty_not_in_insertion_order :
  plan_actions plain_connection two_local_files ∅ ∅
    (consume_dirty (mark_dirty (Some "a") (mark_dirty (Some "b") empty_world))).1
  = [(upload, "a"); (upload, "b")]
  /\ plan_actions plain_connection two_local_files ∅ ∅
    (consume_dirty (mark_dirty (Some "b") (mark_dirty (Some "a") empty_world))).1
  = [(upload, "a"); (upload, "b")].
Proof. split; vm_compute; reflexivity. Qed.

(** Whatever enumeration a set has, the two orders of marking give one set. *)
Lemma mark_dirty_order_forgotten (a b : string) (w : World) :
  a <> "" -> b <> "" ->
  dirty_paths (mark_dirty (Some a) (mark_dirty (Some b) w))
  = dirty_paths (mark_dirty (Some b) (mark_dirty (Some a) w)).
Proof.
  intros Ha Hb. unfold mark_dirty.
  rewrite !bool_decide_eq_false_2 by done. cbn.
  apply set_eq. intros x. rewrite !elem_of_union. tauto.
Qed.

(** ** The snapshot saved at the end of a cycle *)

Lemma foldl_insert_lookup {V} (f : string -> V) (l : list string) (m : gmap string V) k :
  foldl (fun m p => <[p := f p]> m) m l !! k
  = if decide (k ∈ l) then Some (f k) else m !! k.
Proof.
  revert m. induction l as [|p l IH]; intros m; cbn [foldl].
  - by rewrite decide_False by apply not_elem_of_nil.
  - rewrite IH. destruct (decide (k ∈ l)) as [Hin|Hout].
    + rewrite (decide_True (P := k ∈ p :: l)); [done|]. by right.
    + destruct (decide (p = k)) as [->|Hne].
      * rewrite lookup_insert_eq. rewrite (decide_True (P := k ∈ k :: l)); [done|]. left.
      * rewrite lookup_insert_ne by done. rewrite decide_False; [done|].
        rewrite elem_of_cons. intros [?|?]; congruence.
Qed.

Lemma build_snapshot_lookup local_files remote_files p :
  build_snapshot local_files remote_files !! p
  = if decide (p ∈ (dom local_files ∪ dom remote_files : gset string))
    then Some (snapshot_entry local_files remote_files p) else None.
Proof.
  unfold build_snapshot. rewrite foldl_insert_lookup, lookup_empty.
  destruct (decide (p ∈ elements _)) as [Hin|Hout].
  - rewrite decide_True; [done|]. by apply elem_of_elements.
  - rewrite decide_False; [done|]. by rewrite <- elem_of_elements.
Qed.

(** C10. In every map [_build_snapshot] returns, each entry has at least
    one of [local_exists] and [remote_exists] set, a [local_mtime] exactly
    when [local_exists] is set, and a [remote_mtime] exactly when
    [remote_exists] is set. *)
Theorem build_snapshot_entries_well_formed (local_files remote_files : gmap string FileMeta) :
  map_Forall (fun _ e => entry_well_formed e) (build_snapshot local_files remote_files).
Proof.
  intros p e. rewrite build_snapshot_lookup. case_decide as Hin; [|done].
  intros [= <-]. unfold entry_well_formed, snapshot_entry. cbn.
  rewrite !fmap_is_Some, !bool_decide_eq_true. repeat split; try done.
  apply elem_of_union in Hin. by rewrite !elem_of_dom in Hin.
Qed.

(** The paths of the saved map are those of the two snapshots. *)
Lemma build_snapshot_dom (local_files remote_files : gmap string FileMeta) :
  dom (build_snapshot local_files remote_files) = dom local_files ∪ dom remote_files.
Proof.
  apply set_eq. intros p. rewrite elem_of_dom, build_snapshot_lookup.
  case_decide; [by split; eauto|]. split; [by intros [? ?]|done].
Qed.

(** ** Ignored paths *)

Section ignore_containment.

Variable ignore : IgnoreRules.

Lemma scan_files_keys rel_dir filenames files out :
  keys_not_ignored ignore files ->
  scan_files ignore rel_dir filenames files = Ok out -> keys_not_ignored ignore out.
Proof.
  revert files. induction filenames as [|[name st] rest IH]; intros files Hinv; cbn [scan_files].
  - by intros [= <-].
  - destruct (should_ignore ignore _) eqn:E; [by apply IH|].
    destruct st as [st| |msg]; [|by apply IH|done].
    apply IH. intros k. destruct (decide (lstrip "./" (join_path rel_dir name) = k)) as [<-|Hne].
    + done.
    + rewrite lookup_insert_ne by done. apply Hinv.
Qed.

(** By recursion on the tree, with an inner induction on the list of
    sub-directories. *)
Lemma walk_keys : forall (d : Dir) rel_dir files out,
  keys_not_ignored ignore files ->
  walk ignore rel_dir d files = Ok out -> keys_not_ignored ignore out.
Proof.
  fix IH 1. intros [filenames dirs] rel_dir files out Hinv. cbn [walk].
  destruct (scan_files ignore rel_dir filenames files) as [files1|] eqn:E; [|done].
  apply scan_files_keys in E; [|done]. clear Hinv files. revert files1 E.
  induction dirs as [|[d_name sub] rest IHdirs]; intros files1 Hinv.
  - by intros [= <-].
  - destruct (should_ignore ignore _); [by apply IHdirs|].
    destruct (walk ignore (join_path rel_dir d_name) sub files1) as [files2|] eqn:E2; [|done].
    apply IHdirs. by apply (IH sub _ _ _ Hinv E2).
Qed.

Lemma scan_local_keys tree local_snapshot :
  scan_local ignore tree = Ok local_snapshot -> keys_not_ignored ignore local_snapshot.
Proof. apply walk_keys. intros k. rewrite lookup_empty. by intros [? ?]. Qed.

Lemma filter_remote_keys listing : keys_not_ignored ignore (filter_remote ignore listing).
Proof.
  intros k [v Hv]. unfold filter_remote in Hv. by apply map_lookup_filter_Some in Hv as [_ ?].
Qed.

End ignore_containment.

(** C5. For a path [p] that the cycle's rules ignore, no action of the
    cycle's plan has key [p], whatever the local tree, the remote listing,
    the prior state and the dirty set: the plan is made from the local scan
    and the filtered remote listing, and neither has an ignored key. *)
Theorem ignored_path_never_planned (conn : Connection) (ignore : IgnoreRules) (tree : Dir)
    (listing : gmap string FileMeta) (last_state : gmap string SyncEntry)
    (dirty : gset string) (local_snapshot : gmap string FileMeta) (p : string) :
  scan_local ignore tree = Ok local_snapshot ->
  should_ignore ignore p = true ->
  Forall (fun a : Action => a.2 <> p)
         (plan_actions conn local_snapshot (filter_remote ignore listing) last_state dirty).
Proof.
  intros Hscan Hp. apply Forall_forall. intros a Ha Hkey.
  assert (a ∈ actions_for p
            (plan_actions conn local_snapshot (filter_remote ignore listing) last_state dirty))
    as Hin by (apply list_elem_of_filter; by split).
  rewrite actions_for_plan, plan_path_absent in Hin.
  - by apply elem_of_nil in Hin.
  - apply eq_None_not_Some. intros Hs.
    apply (scan_local_keys _ _ _ Hscan) in Hs. congruence.
  - apply eq_None_not_Some. intros Hs.
    apply (filter_remote_keys ignore listing) in Hs. congruence.
Qed.

(** Scenario S5 through C5: [a.log] is ignored, on both sides and dirty, and
    no action is planned for it. *)
Lemma ignored_path_never_planned_s5 :
  Forall (fun a : Action => a.2 <> "a.log")
         (plan_actions plain_connection
            {[ "keep.log" := {| mtime := 100; size := 2 |};
               "b.txt" := {| mtime := 100; size := 3 |} ]}
            (filter_remote s5_ignore s5_listing) ∅ {["a.log"]}).
Proof.
  apply (ignored_path_never_planned plain_connection s5_ignore s5_tree).
  - vm_compute. reflexivity.
  - vm_compute. reflexivity.
Defined.

(** Scenario S5: the planner sees [keep.log] and [b.txt] only. *)
Example scan_local_s5 :
  scan_local s5_ignore s5_tree
  = Ok {[ "keep.log" := {| mtime := 100; size := 2 |};
          "b.txt" := {| mtime := 100; size := 3 |} ]}.
Proof. vm_compute. reflexivity. Qed.

(** ** The cycle and its handler *)

Lemma only_logged_refl w : only_logged [] w w.
Proof. repeat split. exists []. by rewrite app_nil_r. Qed.

Lemma only_logged_trans a ran w1 w2 w3 :
  only_logged [a] w1 w2 -> only_logged ran w2 w3 -> only_logged (a :: ran) w1 w3.
Proof.
  intros (Hs1 & Hc1 & Ht1 & Hd1 & l1 & Hl1 & Hp1) (Hs2 & Hc2 & Ht2 & Hd2 & l2 & Hl2 & Hp2).
  repeat split; try congruence.
  exists (l1 ++ l2). split.
  - rewrite Hl2, Hl1. by rewrite app_assoc.
  - rewrite map_app, Hp1, Hp2. done.
Qed.

(** Every action that does not let an exception escape writes one log
    entry, with its path. *)
Lemma execute_action_logged conn exec a local_files remote_files w l r w' :
  execute_action conn exec a local_files remote_files w = Ok (l, r, w') ->
  only_logged [a] w w'.
Proof.
  destruct a as [action path]. unfold execute_action.
  destruct (exec (action, path)); [destruct action| |]; intros [= <- <- <-];
    repeat split; eexists [_]; split; reflexivity.
Qed.

Lemma execute_action_escapes conn exec a local_files remote_files w :
  (exists msg, exec a = ExecEscapes msg
     /\ execute_action conn exec a local_files remote_files w = Raise msg)
  \/ ((forall m, exec a <> ExecEscapes m)
     /\ exists l r w', execute_action conn exec a local_files remote_files w = Ok (l, r, w')).
Proof.
  destruct a as [action path]. unfold execute_action.
  destruct (exec (action, path)) as [st|msg|msg].
  - right. split; [done|]. destruct action; eauto.
  - right. split; [done|]. eauto.
  - left. eauto.
Qed.

Lemma execute_all_raises conn exec ran a rest msg local_files remote_files w :
  Forall (fun b => forall m, exec b <> ExecEscapes m) ran ->
  exec a = ExecEscapes msg ->
  exists w', execute_all conn exec (ran ++ a :: rest) local_files remote_files w
             = SessionRaised msg w'
             /\ only_logged ran w w'.
Proof.
  intros Hran Ha. revert local_files remote_files w.
  induction Hran as [|b ran Hb _ IH]; intros local_files remote_files w; cbn [app execute_all].
  - destruct (execute_action_escapes conn exec a local_files remote_files w)
      as [(m & Hm & ->)|[Hno _]]; [|by destruct (Hno msg)].
    exists w. split; [congruence|apply only_logged_refl].
  - destruct (execute_action_escapes conn exec b local_files remote_files w)
      as [(m & Hm & _)|[_ (l & r & w1 & Hok)]]; [by destruct (Hb m)|].
    rewrite Hok. destruct (IH l r w1) as (w' & -> & Hlog).
    exists w'. split; [done|]. eapply only_logged_trans; [|done].
    by eapply execute_action_logged.
Qed.

Lemma execute_all_done conn exec actions local_files remote_files w :
  Forall (fun b => forall m, exec b <> ExecEscapes m) actions ->
  exists l r w', execute_all conn exec actions local_files remote_files w = SessionDone l r w'
                 /\ only_logged actions w w'.
Proof.
  intros Hall. revert local_files remote_files w.
  induction Hall as [|b actions Hb _ IH]; intros local_files remote_files w; cbn [execute_all].
  - exists local_files, remote_files, w. split; [done|apply only_logged_refl].
  - destruct (execute_action_escapes conn exec b local_files remote_files w)
      as [(m & Hm & _)|[_ (l & r & w1 & Hok)]]; [by destruct (Hb m)|].
    rewrite Hok. destruct (IH l r w1) as (l' & r' & w' & -> & Hlog).
    exists l', r', w'. split; [done|]. eapply only_logged_trans; [|done].
    by eapply execute_action_logged.
Qed.

(** Either no action lets an exception escape, or there is a first one. *)
Lemma first_escape (exec : Action -> ExecOutcome) (actions : list Action) :
  Forall (fun b => forall m, exec b <> ExecEscapes m) actions
  \/ exists ran a rest msg,
       actions = ran ++ a :: rest
       /\ Forall (fun b => forall m, exec b <> ExecEscapes m) ran
       /\ exec a = ExecEscapes msg.
Proof.
  induction actions as [|b actions IH]; [by left|].
  destruct (exec b) as [st|m|m] eqn:Eb.
  - destruct IH as [Hall|(ran & a & rest & msg & -> & Hran & Ha)].
    + left. constructor; [congruence|done].
    + right. exists (b :: ran), a, rest, msg. repeat split; [|done].
      constructor; [congruence|done].
  - destruct IH as [Hall|(ran & a & rest & msg & -> & Hran & Ha)].
    + left. constructor; [congruence|done].
    + right. exists (b :: ran), a, rest, msg. repeat split; [|done].
      constructor; [congruence|done].
  - right. exists [], b, actions, m. repeat split; [constructor|done].
Qed.

(** C4. In a cycle that gets as far as its [try]: if the session open, the
    remote listing or the execution of an action raises [msg], the cycle
    returns, its last status call is [Error] with [msg], it has appended one
    [error] entry after the entries of the actions that ran, the rows of
    [sync_state] are the ones it found and [save_sync_state] was not called;
    without such an exception the cycle saves once and reports [Running]. *)
Theorem session_exception_keeps_sync_state (conn : Connection) (env : CycleEnv) (w : World)
    (lines : option (list string)) (local_snapshot : gmap string FileMeta) :
  env_stop env = false ->
  env_ignore_file env = Ok lines ->
  let ignore := {| patterns := load_patterns lines |} in
  scan_local ignore (env_tree env) = Ok local_snapshot ->
  env_load env = None ->
  let last_state := load_sync_state (sync_state w) (conn_id conn) in
  let raises := session_raises conn env ignore local_snapshot last_state (dirty_paths w) in
  (forall ran msg, raises ran msg ->
     exists w' action_logs,
       sync_cycle conn env w = (w', Returned)
       /\ sync_state w' = sync_state w
       /\ save_calls w' = save_calls w
       /\ last (status_calls w') = Some (conn_id conn, Error, Some msg)
       /\ logs w' = logs w ++ action_logs ++ [error_entry conn msg]
       /\ map log_path action_logs = map snd ran)
  /\ ((forall ran msg, ~ raises ran msg) ->
      exists w' l r,
        sync_cycle conn env w = (w', Returned)
        /\ sync_state w' = save_sync_state (sync_state w) (conn_id conn) (build_snapshot l r)
        /\ save_calls w' = S (save_calls w)
        /\ last (status_calls w') = Some (conn_id conn, Running, None))
  /\ (forall w' out,
        sync_cycle conn env w = (w', out) -> save_calls w' <> save_calls w ->
        forall ran msg, ~ raises ran msg).
Proof.
  intros Hstop Hfile ignore Hscan Hload last_state raises.
  assert (forall ran msg, raises ran msg ->
     exists w' action_logs,
       sync_cycle conn env w = (w', Returned)
       /\ sync_state w' = sync_state w
       /\ save_calls w' = save_calls w
       /\ last (status_calls w') = Some (conn_id conn, Error, Some msg)
       /\ logs w' = logs w ++ action_logs ++ [error_entry conn msg]
       /\ map log_path action_logs = map snd ran) as Hraise.
  { intros ran msg Hr. unfold sync_cycle. rewrite Hstop, Hfile. fold ignore.
    cbv zeta. rewrite Hscan, Hload. unfold consume_dirty. cbv iota beta. unfold session.
    destruct Hr as [msg Hc|msg Hc Hl|listing ran a rest msg Hc Hl Hplan Hran Ha].
    - rewrite Hc. eexists _, []. split; [reflexivity|]. cbn.
      repeat split; try done. apply last_snoc.
    - rewrite Hc, Hl. eexists _, []. split; [reflexivity|]. cbn.
      repeat split; try done. apply last_snoc.
    - rewrite Hc, Hl. cbv zeta. cbn [dirty_paths sync_state status_callback].
      fold last_state. rewrite Hplan.
      match goal with
      | |- context [execute_all conn (env_exec env) _ ?l ?r ?w0] =>
          destruct (execute_all_raises conn (env_exec env) ran a rest msg l r w0 Hran Ha)
            as (w1 & Hex & Hs & Hsave & Hcalls & _ & al & Hlogs & Hpaths)
      end.
      rewrite Hex. eexists _, al. split; [reflexivity|]. cbn.
      rewrite Hs, Hsave, Hlogs. repeat split; try done.
      + by destruct (ran ++ a :: rest).
      + by destruct (ran ++ a :: rest).
      + apply last_snoc.
      + destruct (ran ++ a :: rest); cbn; by rewrite <- app_assoc. }
  split; [exact Hraise|]. split.
  - intros Hnone. unfold sync_cycle. rewrite Hstop, Hfile. fold ignore.
    cbv zeta. rewrite Hscan, Hload. unfold consume_dirty. cbv iota beta. unfold session.
    destruct (env_connect env) as [msg|] eqn:Hc.
    { destruct (Hnone [] msg). by constructor. }
    destruct (env_listing env) as [listing|msg] eqn:Hl.
    2:{ destruct (Hnone [] msg). by constructor 2. }
    cbv zeta. cbn [dirty_paths sync_state status_callback]. fold last_state.
    destruct (first_escape (env_exec env)
                (plan_actions conn local_snapshot (filter_remote ignore listing)
                   last_state (dirty_paths w)))
      as [Hall|(ran & a & rest & msg & Hplan & Hran & Ha)].
    2:{ destruct (Hnone ran msg). by econstructor 3. }
    match goal with
    | |- context [execute_all conn (env_exec env) _ ?l ?r ?w0] =>
        destruct (execute_all_done conn (env_exec env) _ l r w0 Hall)
          as (l' & r' & w1 & Hex & Hs & Hsave & Hcalls & _)
    end.
    rewrite Hex. eexists _, l', r'. split; [reflexivity|]. cbn.
    rewrite Hs, Hsave. repeat split.
    + by destruct (plan_actions _ _ _ _ _).
    + by destruct (plan_actions _ _ _ _ _).
    + apply last_snoc.
  - intros w' out Hcycle Hsaved ran msg Hr.
    destruct (Hraise ran msg Hr) as (w1 & al & Hc & _ & Hsame & _).
    rewrite Hc in Hcycle. injection Hcycle as <- _. done.
Qed.

(** Scenario S6 through C4: the session cannot be opened; the row saved by
    the earlier cycle stays and one [error] entry is logged. *)
Lemma session_exception_s6 :
  exists w' action_logs,
    sync_cycle plain_connection refused_env synced_world = (w', Returned)
    /\ sync_state w' = sync_state synced_world
    /\ save_calls w' = save_calls synced_world
    /\ last (status_calls w')
       = Some (conn_id plain_connection, Error, Some "Connection refused")
    /\ logs w' = logs synced_world ++ action_logs
                 ++ [error_entry plain_connection "Connection refused"]
    /\ map log_path action_logs = map snd ([] : list Action).
Proof.
  refine (proj1 (session_exception_keeps_sync_state plain_connection refused_env synced_world
                   None ∅ _ _ _ _) [] "Connection refused" _).
  - reflexivity.
  - reflexivity.
  - vm_compute. reflexivity.
  - reflexivity.
  - apply raises_open. reflexivity.
Defined.

(** ** Exceptions raised before the [try] *)

(** An exception of the local walk leaves [_sync_cycle]: the walk runs before
    the [try]. *)
Lemma scan_error_propagates (conn : Connection) (env : CycleEnv) (w : World)
    (lines : option (list string)) (msg : string) :
  env_stop env = false ->
  env_ignore_file env = Ok lines ->
  scan_local {| patterns := load_patterns lines |} (env_tree env) = Raise msg ->
  sync_cycle conn env w = (status_callback conn Syncing None w, Propagated msg).
Proof. intros Hstop Hfile Hscan. unfold sync_cycle. by rewrite Hstop, Hfile, Hscan. Qed.

(** So does an exception of [load_sync_state]. *)
Lemma load_error_propagates (conn : Connection) (env : CycleEnv) (w : World)
    (lines : option (list string)) (local_snapshot : gmap string FileMeta) (msg : string) :
  env_stop env = false ->
  env_ignore_file env = Ok lines ->
  scan_local {| patterns := load_patterns lines |} (env_tree env) = Ok local_snapshot ->
  env_load env = Some msg ->
  sync_cycle conn env w = (status_callback conn Syncing None w, Propagated msg).
Proof.
  intros Hstop Hfile Hscan Hload. unfold sync_cycle. by rewrite Hstop, Hfile, Hscan, Hload.
Qed.

(** [run] has a [finally] and no [except]: an exception that leaves a cycle
    ends the loop and leaves [run]; the later cycles do not happen. *)
Lemma run_propagates (conn : Connection) (env : CycleEnv) (later : list CycleEnv)
    (w w' : World) (msg : string) :
  sync_cycle conn env w = (w', Propagated msg) ->
  run conn (env :: later) w = (status_callback conn Stopped None w', Propagated msg).
Proof. intros Hcycle. cbn [run]. by rewrite Hcycle. Qed.

(** C7 fails on the code. A [stat] that raises during the local walk, or a
    [load_sync_state] that raises, ends the worker: the exception leaves
    [run], the status calls are [Syncing] then [Stopped] (never [Error]),
    nothing is logged and the next cycle does not run. An SFTP session that
    cannot be opened is handled, and the loop goes on. *)
Theorem scan_error_ends_the_worker :
  ((run plain_connection [unreadable_env; quiet_env] synced_world).2
     = Propagated "Permission denied"
   /\ status_calls (run plain_connection [unreadable_env; quiet_env] synced_world).1
     = [(1%Z, Syncing, None); (1%Z, Stopped, None)]
   /\ logs (run plain_connection [unreadable_env; quiet_env] synced_world).1 = [])
  /\ ((run plain_connection [locked_env; quiet_env] synced_world).2
     = Propagated "database is locked"
   /\ status_calls (run plain_connection [locked_env; quiet_env] synced_world).1
     = [(1%Z, Syncing, None); (1%Z, Stopped, None)]
   /\ logs (run plain_connection [locked_env; quiet_env] synced_world).1 = [])
  /\ ((run plain_connection [refused_env; quiet_env] synced_world).2 = Returned
   /\ status_calls (run plain_connection [refused_env; quiet_env] synced_world).1
     = [(1%Z, Syncing, None); (1%Z, Error, Some "Connection refused");
        (1%Z, Syncing, None); (1%Z, Running, None); (1%Z, Stopped, None)]
   /\ logs (run plain_connection [refused_env; quiet_env] synced_world).1
     = [error_entry plain_connection "Connection refused"]).
Proof. repeat split; vm_compute; reflexivity. Qed.

(** ** One whole cycle *)

(** Scenario S1 run to its end: the download is executed and logged, the
    local snapshot takes the downloaded file's [stat], and the saved state
    records both sides; the dirty set is drained. *)
Example sync_cycle_s1 :
  let env :=
    {| env_stop := false; env_ignore_file := Ok None;
       env_tree := MkDir [("a.txt", StatOk {| mtime := 100; size := 10 |})] [];
       env_load := None; env_connect := None; env_listing := Ok s1_remote;
       env_exec := fun _ => ExecOk {| mtime := 300; size := 10 |} |} in
  let w := (sync_cycle plain_connection env synced_world).1 in
  load_sync_state (sync_state w) 1
  = {[ "a.txt" := {| local_exists := true; local_mtime := Some 300%Q;
                     remote_exists := true; remote_mtime := Some 200%Q; hash := None |} ]}
  /\ map log_type (logs w) = ["download"]
  /\ map (fun c : StatusCall => c.1.2) (status_calls w) = [Syncing; Syncing; Running]
  /\ dirty_paths w = ∅
  /\ save_calls w = 2%nat.
Proof. repeat split; vm_compute; reflexivity. Qed.

(** * Further properties *)

Lemma flat_map_keys_NoDup {A} (f : string -> list (A * string)) (l : list string) :
  (forall q a, a ∈ f q -> a.2 = q) ->
  (forall q, (length (f q) <= 1)%nat) ->
  NoDup l -> NoDup (map snd (flat_map f l)).
Proof.
  intros Hkey Hone. induction 1 as [|q l Hq Hnd IH]; cbn [flat_map map]; [constructor|].
  rewrite map_app. apply NoDup_app. split; [|split; [|done]].
  - specialize (Hone q). destruct (f q) as [|a [|b rest]]; cbn in *; try lia.
    + constructor.
    + apply NoDup_singleton.
  - intros p Hp Hp'. apply list_elem_of_fmap in Hp as (a & -> & Ha).
    apply list_elem_of_fmap in Hp' as (b & Hb & Hin).
    apply list_elem_of_In, in_flat_map in Hin as (q' & Hq' & Hb').
    apply list_elem_of_In in Hq', Hb'.
    rewrite (Hkey _ _ Ha) in Hb. rewrite (Hkey _ _ Hb') in Hb. subst q'. done.
Qed.

Lemma plan_path_length conn local_files remote_files last_state p :
  (length (plan_path conn local_files remote_files last_state p) <= 1)%nat.
Proof.
  unfold plan_path.
  repeat match goal with
         | |- context [match ?x with _ => _ end] => destruct x
         end; cbn; lia.
Qed.

(** X1. No two planned actions have the same path: a cycle acts on a path at
    most once. *)
Theorem plan_one_action_per_path (conn : Connection)
    (local_files remote_files : gmap string FileMeta)
    (last_state : gmap string SyncEntry) (dirty : gset string) :
  NoDup (map snd (plan_actions conn local_files remote_files last_state dirty)).
Proof.
  rewrite plan_actions_flat_map. unfold Action.
  apply flat_map_keys_NoDup.
  - apply plan_path_key.
  - apply plan_path_length.
  - apply NoDup_ordered.
Qed.

Lemma elem_of_plan conn local_files remote_files last_state dirty a :
  a ∈ plan_actions conn local_files remote_files last_state dirty
  <-> a ∈ plan_path conn local_files remote_files last_state a.2.
Proof.
  rewrite <- (actions_for_plan conn local_files remote_files last_state dirty a.2).
  unfold actions_for. rewrite list_elem_of_filter. tauto.
Qed.

(** X2. Every planned action fits the snapshots: an upload names a path that
    exists locally, a download one that exists remotely, and a deletion is
    only planned for a path present on the one side alone, recorded on both
    sides by the prior state, with [allow_delete] set. *)
Theorem plan_actions_match_sides (conn : Connection)
    (local_files remote_files : gmap string FileMeta)
    (last_state : gmap string SyncEntry) (dirty : gset string) :
  Forall (fun a : Action =>
            match a.1 with
            | upload => is_Some (local_files !! a.2)
            | download => is_Some (remote_files !! a.2)
            | delete_local =>
                is_Some (local_files !! a.2) /\ remote_files !! a.2 = None
                /\ prior_both_present last_state a.2 /\ allow_delete conn = true
            | delete_remote =>
                local_files !! a.2 = None /\ is_Some (remote_files !! a.2)
                /\ prior_both_present last_state a.2 /\ allow_delete conn = true
            end)
         (plan_actions conn local_files remote_files last_state dirty).
Proof.
  apply Forall_forall. intros [k p] Ha. apply elem_of_plan in Ha. cbn [fst snd] in *.
  unfold plan_path in Ha.
  destruct (local_files !! p) as [l|], (remote_files !! p) as [r|];
    repeat match type of Ha with
           | context [if ?x then _ else _] => destruct x eqn:?
           end;
    try (by apply elem_of_nil in Ha);
    apply list_elem_of_singleton in Ha; injection Ha as ->;
    repeat match goal with
           | H : prev_both _ = true |- _ => apply prev_both_spec in H
           end; eauto 10.
Qed.

Lemma flat_map_nil {A B} (f : A -> list B) (l : list A) :
  (forall x, x ∈ l -> f x = []) -> flat_map f l = [].
Proof.
  induction l as [|x l IH]; intros H; cbn [flat_map]; [done|].
  rewrite (H x) by left. rewrite IH; [done|]. intros y Hy. apply H. by right.
Qed.

(** X3. When both snapshots hold the same paths and every pair of files is
    equal (same size, mtimes at most a second apart), nothing is planned,
    whatever the prior state and the dirty set. *)
Theorem plan_nothing_when_trees_agree (conn : Connection)
    (local_files remote_files : gmap string FileMeta)
    (last_state : gmap string SyncEntry) (dirty : gset string) :
  dom local_files = dom remote_files ->
  (forall p l r, local_files !! p = Some l -> remote_files !! p = Some r -> files_equal l r) ->
  plan_actions conn local_files remote_files last_state dirty = [].
Proof.
  intros Hdom Heq. rewrite plan_actions_flat_map. apply flat_map_nil. intros p _.
  unfold plan_path.
  destruct (local_files !! p) as [l|] eqn:El, (remote_files !! p) as [r|] eqn:Er.
  - apply (Heq p l r El) in Er. apply files_differ_false in Er. by rewrite Er.
  - assert (p ∈ dom remote_files) as Hin by (rewrite <- Hdom; by apply elem_of_dom).
    apply elem_of_dom in Hin as [? ?]. congruence.
  - assert (p ∈ dom local_files) as Hin by (rewrite Hdom; by apply elem_of_dom).
    apply elem_of_dom in Hin as [? ?]. congruence.
  - done.
Qed.

Lemma plan_nothing_when_trees_agree_ex :
  plan_actions plain_connection s1_local s1_local s3_last_state {["a.txt"]} = [].
Proof.
  apply plan_nothing_when_trees_agree; [reflexivity|].
  intros p l r Hl Hr. rewrite Hl in Hr. injection Hr as <-.
  unfold s1_local in Hl. apply lookup_singleton_Some in Hl as [_ <-]. split; [reflexivity|].
  vm_compute. discriminate.
Defined.

(** X4. With [local_priority] set, the only actions planned for a path that
    exists locally are its upload and its local deletion: a download never
    overwrites the local copy. *)
Theorem local_priority_never_overwrites_local (conn : Connection)
    (local_files remote_files : gmap string FileMeta)
    (last_state : gmap string SyncEntry) (dirty : gset string) :
  local_priority conn = true ->
  Forall (fun a : Action =>
            is_Some (local_files !! a.2) -> a.1 = upload \/ a.1 = delete_local)
         (plan_actions conn local_files remote_files last_state dirty).
Proof.
  intros Hlp. apply Forall_forall. intros [k p] Ha. apply elem_of_plan in Ha.
  cbn [fst snd] in *. unfold plan_path in Ha. rewrite Hlp in Ha. intros [l Hl].
  rewrite Hl in Ha. cbn [orb] in Ha.
  destruct (remote_files !! p) as [r|];
    repeat match type of Ha with
           | context [if ?x then _ else _] => destruct x eqn:?
           end;
    try (by apply elem_of_nil in Ha);
    apply list_elem_of_singleton in Ha; injection Ha as ->; auto.
Qed.

Lemma local_priority_never_overwrites_local_ex :
  Forall (fun a : Action =>
            is_Some (s1_local !! a.2) -> a.1 = upload \/ a.1 = delete_local)
         (plan_actions {| conn_id := 1; conn_allow_delete := 0; conn_local_priority := 1 |}
            s1_local s1_remote ∅ ∅).
Proof. apply local_priority_never_overwrites_local. reflexivity. Defined.

(** The lookups at every key after a run of actions without an escaping
    exception, when no two actions share a key. *)
Lemma execute_all_lookup conn exec actions :
  NoDup (map snd actions) ->
  forall local_files remote_files w l' r' w',
  execute_all conn exec actions local_files remote_files w = SessionDone l' r' w' ->
  forall p,
    (p ∉ map snd actions -> l' !! p = local_files !! p /\ r' !! p = remote_files !! p)
    /\ (forall k, (k, p) ∈ actions ->
          (l' !! p, r' !! p) = effect k (exec (k, p)) (local_files !! p) (remote_files !! p)).
Proof.
  induction actions as [|[k q] actions IH]; intros Hnd local_files remote_files w l' r' w'.
  - cbn [execute_all]. intros [= <- <- <-] p. split; [done|].
    intros k' Hin. by apply elem_of_nil in Hin.
  - cbn [map snd] in Hnd. apply NoDup_cons in Hnd as [Hq Hnd].
    cbn [execute_all].
    destruct (execute_action conn exec (k, q) local_files remote_files w)
      as [[[l1 r1] w1]|msg] eqn:Hex; [|done].
    intros Hall p. destruct (IH Hnd l1 r1 w1 l' r' w' Hall p) as [Hout Hin].
    assert (p <> q -> l1 !! p = local_files !! p /\ r1 !! p = remote_files !! p) as Hother.
    { intros Hne. unfold execute_action in Hex.
      destruct (exec (k, q)); [destruct k| |]; simplify_eq;
        rewrite ?lookup_insert_ne, ?lookup_delete_ne by done; done. }
    assert ((l1 !! q, r1 !! q)
            = effect k (exec (k, q)) (local_files !! q) (remote_files !! q)) as Hself.
    { unfold execute_action in Hex. unfold effect.
      destruct (exec (k, q)); [destruct k| |]; simplify_eq;
        rewrite ?lookup_insert_eq, ?lookup_delete_eq; done. }
    split.
    + intros Hp. cbn [map snd] in Hp. apply not_elem_of_cons in Hp as [Hne Hp].
      destruct (Hout Hp) as [-> ->]. by apply Hother.
    + intros k' Hk'. apply elem_of_cons in Hk' as [[= -> ->]|Hk'].
      * destruct (Hout Hq) as [-> ->]. done.
      * assert (p <> q) as Hne.
        { intros ->. apply Hq. apply list_elem_of_fmap. by exists (k', q). }
        rewrite (Hin k' Hk'). by destruct (Hother Hne) as [-> ->].
Qed.

Lemma plan_keys_NoDup conn local_files remote_files last_state dirty :
  NoDup (map snd (plan_actions conn local_files remote_files last_state dirty)).
Proof.
  rewrite plan_actions_flat_map. unfold Action.
  apply flat_map_keys_NoDup.
  - apply plan_path_key.
  - apply plan_path_length.
  - apply NoDup_ordered.
Qed.

Lemma execute_all_logs conn exec actions :
  Forall (fun b => forall m, exec b <> ExecEscapes m) actions ->
  forall local_files remote_files w,
  exists l' r' w',
    execute_all conn exec actions local_files remote_files w = SessionDone l' r' w'
    /\ logs w' = logs w ++ map (action_entry conn exec) actions
    /\ sync_state w' = sync_state w /\ status_calls w' = status_calls w
    /\ dirty_paths w' = dirty_paths w /\ save_calls w' = save_calls w.
Proof.
  induction 1 as [|[k q] actions Hb _ IH]; intros local_files remote_files w.
  - exists local_files, remote_files, w. cbn. by rewrite app_nil_r.
  - cbn [execute_all map]. unfold execute_action at 1, action_entry at 1. cbn [fst snd].
    destruct (exec (k, q)) as [st|msg|msg] eqn:Hex; [destruct k| |by destruct (Hb msg)];
      match goal with
      | |- context [execute_all conn exec actions ?l ?r ?w1] =>
          destruct (IH l r w1) as (l' & r' & w' & He & Hl & Hs & Hc & Hd & Hv)
      end;
      exists l', r', w'; rewrite He, Hl, Hs, Hc, Hd, Hv; cbn; by rewrite <- app_assoc.
Qed.

Lemma plan_path_shape conn local_files remote_files last_state p :
  (plan_path conn local_files remote_files last_state p = []
   /\ (is_Some (local_files !! p) <-> is_Some (remote_files !! p)))
  \/ (exists k, plan_path conn local_files remote_files last_state p = [(k, p)]
      /\ match k with
         | upload | delete_local => is_Some (local_files !! p)
         | download | delete_remote => is_Some (remote_files !! p)
         end
      /\ (k = delete_local -> remote_files !! p = None)
      /\ (k = delete_remote -> local_files !! p = None)).
Proof.
  unfold plan_path.
  destruct (local_files !! p) as [l|], (remote_files !! p) as [r|];
    repeat match goal with
           | |- context [if ?x then _ else _] => destruct x
           end;
    first [ left; split; [reflexivity|]; split; intros [? ?]; by eauto
          | right; eexists; split; [reflexivity|]; repeat split; by eauto ].
Qed.

(** X5. When every planned action succeeds, the loop ends normally with both
    snapshots holding the same paths, and every entry of the state built
    from them records the file on both sides. *)
Theorem all_actions_succeed_trees_agree (conn : Connection) (exec : Action -> ExecOutcome)
    (local_files remote_files : gmap string FileMeta)
    (last_state : gmap string SyncEntry) (dirty : gset string) (w : World) :
  Forall (fun a => exists st, exec a = ExecOk st)
         (plan_actions conn local_files remote_files last_state dirty) ->
  exists l' r' w',
    execute_all conn exec (plan_actions conn local_files remote_files last_state dirty)
      local_files remote_files w = SessionDone l' r' w'
    /\ dom l' = dom r'
    /\ map_Forall (fun _ e => local_exists e = true /\ remote_exists e = true)
                  (build_snapshot l' r').
Proof.
  intros Hok.
  set (plan := plan_actions conn local_files remote_files last_state dirty) in *.
  assert (Forall (fun b => forall m, exec b <> ExecEscapes m) plan) as Hno.
  { eapply Forall_impl; [exact Hok|]. intros a [st Hst] m. congruence. }
  destruct (execute_all_logs conn exec plan Hno local_files remote_files w)
    as (l' & r' & w' & Hex & _).
  exists l', r', w'. split; [done|].
  assert (forall p, is_Some (l' !! p) <-> is_Some (r' !! p)) as Hsame.
  { intros p.
    destruct (execute_all_lookup conn exec plan (plan_keys_NoDup _ _ _ _ _)
                _ _ _ _ _ _ Hex p) as [Hout Hin].
    destruct (plan_path_shape conn local_files remote_files last_state p)
      as [[Hnil Hiff]|(k & Hone & Hside & Hdl & Hdr)].
    - destruct Hout as [-> ->]; [|done].
      intros Hp. apply list_elem_of_fmap in Hp as ([k q] & Hq & Ha).
      cbn in Hq. subst q. apply elem_of_plan in Ha. cbn [snd] in Ha.
      rewrite Hnil in Ha. by apply elem_of_nil in Ha.
    - assert ((k, p) ∈ plan) as Ha.
      { apply elem_of_plan. cbn [snd]. rewrite Hone. left. }
      specialize (Hin k Ha).
      apply (proj1 (Forall_forall _ _) Hok) in Ha as [st Hst]. rewrite Hst in Hin.
      destruct k; cbn in Hin; injection Hin as -> ->;
        rewrite ?Hdl, ?Hdr by done; split; intros; eauto; try done. }
  assert (dom l' = dom r') as Hdom.
  { apply set_eq. intros p. rewrite !elem_of_dom. apply Hsame. }
  split; [done|].
  intros p e. rewrite build_snapshot_lookup. case_decide as Hin; [|done].
  intros [= <-]. cbn. rewrite !bool_decide_eq_true.
  rewrite <- Hdom, union_idemp_L in Hin. apply elem_of_dom in Hin.
  split; [done|]. by apply Hsame.
Qed.

Lemma all_actions_succeed_trees_agree_ex :
  exists l' r' w',
    execute_all plain_connection (fun _ => ExecOk {| mtime := 300; size := 10 |})
      (plan_actions plain_connection s1_local s1_remote ∅ ∅)
      s1_local s1_remote empty_world = SessionDone l' r' w'
    /\ dom l' = dom r'
    /\ map_Forall (fun _ e => local_exists e = true /\ remote_exists e = true)
                  (build_snapshot l' r').
Proof.
  apply all_actions_succeed_trees_agree. apply Forall_forall. intros a _. by eexists.
Defined.



Lemma grows_refl w : grows w w.
Proof. by split. Qed.

Lemma grows_trans w1 w2 w3 : grows w1 w2 -> grows w2 w3 -> grows w1 w3.
Proof. intros [? ?] [? ?]. split; by etrans. Qed.

Lemma grows_add_log conn type path message w : grows w (add_log conn type path message w).
Proof. split; cbn; [by apply prefix_app_r|done]. Qed.

Lemma grows_status_callback conn status error w : grows w (status_callback conn status error w).
Proof. split; cbn; [done|by apply prefix_app_r]. Qed.

Lemma execute_action_world conn exec a local_files remote_files w l r w' :
  execute_action conn exec a local_files remote_files w = Ok (l, r, w') ->
  exists type message, w' = add_log conn type a.2 message w.
Proof.
  destruct a as [k p]. unfold execute_action.
  destruct (exec (k, p)); [destruct k| |]; intros; simplify_eq; eauto.
Qed.

Lemma execute_all_frame conn exec actions local_files remote_files w :
  let w' := session_world (execute_all conn exec actions local_files remote_files w) in
  grows w w' /\ sync_state w' = sync_state w /\ dirty_paths w' = dirty_paths w
  /\ save_calls w' = save_calls w.
Proof.
  revert local_files remote_files w.
  induction actions as [|a actions IH]; intros local_files remote_files w; cbn [execute_all].
  - cbn. split; [apply grows_refl|done].
  - destruct (execute_action conn exec a local_files remote_files w)
      as [[[l1 r1] w1]|msg] eqn:Hex.
    + apply execute_action_world in Hex as (type & message & ->).
      destruct (IH l1 r1 (add_log conn type a.2 message w)) as (Hg & Hs & Hd & Hv).
      split; [|by rewrite Hs, Hd, Hv].
      eapply grows_trans; [apply grows_add_log|exact Hg].
    + cbn. split; [apply grows_refl|done].
Qed.

Lemma session_frame conn env ignore local_snapshot last_state dirty w :
  let w' := session_world (session conn env ignore local_snapshot last_state dirty w) in
  grows w w' /\ sync_state w' = sync_state w /\ dirty_paths w' = dirty_paths w
  /\ save_calls w' = save_calls w.
Proof.
  unfold session. destruct (env_connect env); [cbn; split; [apply grows_refl|done]|].
  destruct (env_listing env) as [listing|msg]; [|cbn; split; [apply grows_refl|done]].
  cbv zeta.
  match goal with
  | |- context [execute_all conn (env_exec env) ?acts ?l ?r ?w0] =>
      destruct (execute_all_frame conn (env_exec env) acts l r w0) as (Hg & Hs & Hd & Hv);
      assert (grows w w0 /\ sync_state w0 = sync_state w /\ dirty_paths w0 = dirty_paths w
              /\ save_calls w0 = save_calls w) as (Hg0 & Hs0 & Hd0 & Hv0)
  end.
  { destruct (plan_actions _ _ _ _ _); (split; [|done]);
      [apply grows_refl|apply grows_status_callback]. }
  split; [by eapply grows_trans|]. by rewrite Hs, Hd, Hv.
Qed.



(** What one cycle does to the table and to the two logs. *)
Lemma sync_cycle_frame conn env w :
  let w' := (sync_cycle conn env w).1 in
  grows w w'
  /\ (sync_state w' = sync_state w
      \/ exists snapshot,
           sync_state w' = save_sync_state (sync_state w) (conn_id conn) snapshot).
Proof.
  unfold sync_cycle. destruct (env_stop env); [cbn; split; [apply grows_refl|by left]|].
  destruct (env_ignore_file env) as [lines|msg]; [|cbn; split; [apply grows_refl|by left]].
  cbv zeta.
  destruct (scan_local _ _) as [local_snapshot|msg];
    [|cbn; split; [apply grows_status_callback|by left]].
  destruct (env_load env); [cbn; split; [apply grows_status_callback|by left]|].
  unfold consume_dirty. cbv iota beta.
  match goal with
  | |- context [session conn env ?i ?l ?s ?d ?w0] =>
      destruct (session_frame conn env i l s d w0) as (Hg & Hs & _ & _);
      destruct (session conn env i l s d w0) as [exc w1|l1 r1 w1]
  end; cbn in *.
  - split; [|left; by rewrite Hs].
    destruct Hg as [Hl Hc]. cbn in Hl, Hc. split; cbn.
    + by apply prefix_app_r.
    + apply prefix_app_r. etrans; [|exact Hc]. by apply prefix_app_r.
  - split; [|right; eexists; by rewrite Hs].
    destruct Hg as [Hl Hc]. cbn in Hl, Hc. split; cbn.
    + exact Hl.
    + apply prefix_app_r. etrans; [|exact Hc]. by apply prefix_app_r.
Qed.

(** X8. However [run] ends, by the loop ending or by an exception leaving a
    cycle, its last status call is [Stopped] with no error. *)
Theorem run_reports_stopped_last (conn : Connection) (cycles : list CycleEnv) (w : World) :
  last (status_calls (run conn cycles w).1) = Some (conn_id conn, Stopped, None).
Proof.
  revert w. induction cycles as [|env cycles IH]; intros w; cbn [run].
  - cbn. apply last_snoc.
  - destruct (sync_cycle conn env w) as [w1 [|msg]]; [apply IH|].
    cbn. apply last_snoc.
Qed.

(** X9. [run] only appends: the log entries and the status calls it found
    are kept, in order, before the ones it adds. *)
Theorem run_only_appends (conn : Connection) (cycles : list CycleEnv) (w : World) :
  logs w `prefix_of` logs (run conn cycles w).1
  /\ status_calls w `prefix_of` status_calls (run conn cycles w).1.
Proof.
  change (grows w (run conn cycles w).1).
  revert w. induction cycles as [|env cycles IH]; intros w; cbn [run].
  - apply grows_status_callback.
  - pose proof (sync_cycle_frame conn env w) as [Hg _].
    destruct (sync_cycle conn env w) as [w1 [|msg]]; cbn [fst] in *.
    + eapply grows_trans; [exact Hg|apply IH].
    + eapply grows_trans; [exact Hg|apply grows_status_callback].
Qed.



Lemma replace_char_idemp a b s :
  a <> b -> replace_char a b (replace_char a b s) = replace_char a b s.
Proof.
  intros Hne. induction s as [|c s IH]; cbn [replace_char]; [done|]. rewrite IH. f_equal.
  destruct (bool_decide (c = a)) eqn:E; [|by rewrite E].
  rewrite bool_decide_eq_false_2; [done|]. congruence.
Qed.

Lemma should_ignore_normalize rules p q :
  normalize p = normalize q -> should_ignore rules p = should_ignore rules q.
Proof. unfold should_ignore. by intros ->. Qed.

(** X12. [should_ignore] gives the same answer for a path and for the path
    with a dot, a slash or a backslash put in front: leading dots and
    slashes are stripped before matching. *)
Theorem should_ignore_strips_leading_dots_and_slashes (rules : IgnoreRules)
    (c : ascii) (p : string) :
  c = "."%char \/ c = "/"%char \/ c = "\"%char ->
  should_ignore rules (String c p) = should_ignore rules p.
Proof.
  intros Hc. apply should_ignore_normalize. unfold normalize.
  assert (lstrip "./" (replace_char "\" "/" (String c p))
          = lstrip "./" (replace_char "\" "/" p)) as ->; [|done].
  destruct Hc as [-> | [-> | ->]]; reflexivity.
Qed.

Lemma should_ignore_dotfile :
  should_ignore {| patterns := [".env"] |} ".env"
  = should_ignore {| patterns := [".env"] |} "env".
Proof.
  apply (should_ignore_strips_leading_dots_and_slashes _ "."%char "env"). by left.
Defined.

(** X13. [should_ignore] treats a backslash as a slash: replacing the
    backslashes of a path by slashes does not change the answer. *)
Theorem should_ignore_backslash_is_slash (rules : IgnoreRules) (p : string) :
  should_ignore rules (replace_char "\" "/" p) = should_ignore rules p.
Proof.
  apply should_ignore_normalize. unfold normalize. by rewrite replace_char_idemp.
Qed.

(** X14. Appending a negated pattern ([!...]) to the rules never makes a
    path ignored that was not, and appending any other pattern never makes a
    path kept that was ignored. *)
Theorem appended_pattern_is_monotone (pats : list string) (pattern path : string) :
  (startswith "!" pattern = true ->
     should_ignore {| patterns := pats ++ [pattern] |} path = true ->
     should_ignore {| patterns := pats |} path = true)
  /\ (startswith "!" pattern = false ->
     should_ignore {| patterns := pats |} path = true ->
     should_ignore {| patterns := pats ++ [pattern] |} path = true).
Proof.
  rewrite should_ignore_snoc. unfold apply_pattern. cbv zeta.
  split; intros ->; cbv iota; cbn [negb];
    repeat match goal with
           | |- context [if ?x then _ else _] => destruct x
           end; done.
Qed.





Lemma NoDup_filter_map {A B} (f : A -> B) (P : A -> bool) (l : list A) :
  NoDup (map f l) -> NoDup (map f (List.filter P l)).
Proof.
  induction l as [|x l IH]; cbn [map List.filter]; [done|].
  intros [Hx Hnd]%NoDup_cons. destruct (P x); [|by apply IH].
  cbn [map]. apply NoDup_cons. split; [|by apply IH].
  intros Hin. apply Hx. apply list_elem_of_fmap in Hin as (y & -> & Hy).
  apply list_elem_of_fmap. exists y. split; [done|].
  apply list_elem_of_In, filter_In in Hy as [Hy _]. by apply list_elem_of_In.
Qed.

(** X17. If no two rows of the table share [(connection_id, path)], the same
    holds after [save_sync_state]: its inserts cannot violate the [UNIQUE]
    constraint. *)
Theorem save_sync_state_keeps_keys_unique (table : list Row) (connection_id : Z)
    (entries : gmap string SyncEntry) :
  NoDup (map row_key table) ->
  NoDup (map row_key (save_sync_state table connection_id entries)).
Proof.
  intros Hnd. rewrite save_sync_state_rows, map_app. apply NoDup_app. split; [|split].
  - by apply NoDup_filter_map.
  - intros key Hold Hnew.
    apply list_elem_of_fmap in Hold as (row & -> & Hrow).
    apply list_elem_of_In, filter_In in Hrow as [_ Hother].
    apply list_elem_of_fmap in Hnew as (row' & Hkey & Hrow').
    apply list_elem_of_fmap in Hrow' as ([path meta] & -> & _).
    unfold row_key in Hkey. cbn in Hkey. injection Hkey as Hid _.
    unfold of_connection in Hother. rewrite Hid, Z.eqb_refl in Hother. done.
  - assert (map row_key (map (row_of connection_id) (map_to_list entries))
            = map (fun path => (connection_id, path)) (map_to_list entries).*1) as ->.
    { induction (map_to_list entries) as [|[path meta] items IH]; [done|].
      cbn [map fmap list_fmap]. by rewrite IH. }
    apply NoDup_fmap_2; [|apply NoDup_fst_map_to_list]. by intros ?? [= ->].
Qed.

Lemma save_sync_state_keeps_keys_unique_ex :
  NoDup (map row_key (save_sync_state (sync_state synced_world) 1 s3_last_state)).
Proof.
  apply save_sync_state_keeps_keys_unique. cbn. apply NoDup_singleton.
Defined.

Import Logs.

(** X18. After [add_log] for a connection, [get_logs] for it with a limit of
    at least one returns the new entry first, followed by what it returned
    before with the limit lowered by one. *)
Theorem get_logs_newest_first (conn : Connection) (type path message : string)
    (w : World) (limit : Z) :
  (1 <= limit)%Z ->
  get_logs (logs (add_log conn type path message w)) (conn_id conn) limit
  = {| log_connection_id := conn_id conn; log_type := type; log_path := path;
       log_message := message |}
    :: get_logs (logs w) (conn_id conn) (limit - 1).
Proof.
  intros Hlimit. unfold get_logs, sql_limit. cbn [logs add_log].
  rewrite List.filter_app. cbn [List.filter log_connection_id]. rewrite Z.eqb_refl.
  rewrite reverse_app. cbn [reverse rev_append app].
  destruct (Z.ltb_spec limit 0); [lia|]. destruct (Z.ltb_spec (limit - 1) 0); [lia|].
  replace (Z.to_nat limit) with (S (Z.to_nat (limit - 1))) by lia. done.
Qed.

Lemma get_logs_newest_first_ex :
  get_logs (logs (add_log plain_connection "info" "" "started" empty_world)) 1 500
  = [ {| log_connection_id := 1; log_type := "info"; log_path := "";
         log_message := "started" |} ].
Proof. apply (get_logs_newest_first plain_connection "info" "" "started" empty_world 500). lia. Defined.




Import Settings.

Lemma foldl_insert_union {V} (items : list (string * V)) (m : gmap string V) :
  NoDup items.*1 ->
  foldl (fun m item => <[item.1 := item.2]> m) m items = list_to_map items ∪ m.
Proof.
  revert m. induction items as [|[k v] items IH]; intros m Hnd; cbn [foldl].
  - cbn. by rewrite (left_id_L ∅ (∪)).
  - apply NoDup_cons in Hnd as [Hk Hnd]. rewrite IH by done. cbn [fst snd list_to_map foldr].
    unfold uncurry. cbn [fst snd].
    rewrite <- insert_union_r; [|by apply not_elem_of_list_to_map_1].
    by rewrite insert_union_l.
Qed.

(** X20. [get_settings] after [update_settings] returns the updated values
    over what it returned before, and it always has the five default keys. *)
Theorem settings_update_then_get (values table : gmap string SettingValue) :
  get_settings (update_settings values table) = values ∪ get_settings table
  /\ dom _DEFAULT_SETTINGS ⊆ dom (get_settings table).
Proof.
  unfold get_settings, update_settings.
  rewrite !foldl_insert_union by apply NoDup_fst_map_to_list.
  rewrite !list_to_map_to_list. split.
  - by rewrite (assoc_L (∪)).
  - rewrite dom_union_L. apply union_subseteq_r.
Qed.

Import Updater.

Lemma compare_loop_app l1 l2 :
  compare_loop (l1 ++ l2)
  = if (compare_loop l1 =? 0)%Z then compare_loop l2 else compare_loop l1.
Proof.
  induction l1 as [|[a b] l1 IH]; cbn [app compare_loop]; [done|].
  destruct (b <? a)%Z; [done|]. destruct (a <? b)%Z; [done|]. apply IH.
Qed.

Lemma compare_loop_same l : compare_loop (zip l l) = 0%Z.
Proof.
  induction l as [|a l IH]; cbn; [done|]. by rewrite Z.ltb_irrefl.
Qed.

Lemma compare_loop_swap pa pb :
  compare_loop (zip pb pa) = (- compare_loop (zip pa pb))%Z.
Proof.
  revert pb. induction pa as [|a pa IH]; intros [|b pb]; cbn; try done.
  destruct (Z.ltb_spec b a), (Z.ltb_spec a b); try lia; try done; apply IH.
Qed.

Lemma compare_parts_swap a b : compare_parts b a = (- compare_parts a b)%Z.
Proof.
  unfold compare_parts. cbv zeta. rewrite (Nat.max_comm (length b) (length a)).
  apply compare_loop_swap.
Qed.

Lemma compare_parts_same a : compare_parts a a = 0%Z.
Proof. unfold compare_parts. apply compare_loop_same. Qed.

Lemma zip_app_same_length {A B} (x x' : list A) (y y' : list B) :
  length x = length y -> zip (x ++ x') (y ++ y') = zip x y ++ zip x' y'.
Proof.
  revert y. induction x as [|a x IH]; intros [|b y] Hlen; cbn in *; try done.
  f_equal. apply IH. lia.
Qed.

Lemma pad_length (l : list Z) (m : nat) :
  (length l <= m)%nat -> length (l ++ repeat 0%Z (m - length l)) = m.
Proof. intros H. rewrite length_app, repeat_length. lia. Qed.

(** Comparing with both lists padded to any common length that is long
    enough gives what [compare_parts] gives. *)
Lemma compare_parts_padded a b m :
  (length a <= m)%nat -> (length b <= m)%nat ->
  compare_loop (zip (a ++ repeat 0%Z (m - length a)) (b ++ repeat 0%Z (m - length b)))
  = compare_parts a b.
Proof.
  intros Ha Hb. unfold compare_parts. cbv zeta.
  set (n := Nat.max (length a) (length b)).
  assert (n <= m)%nat as Hn by lia.
  replace (m - length a)%nat with ((n - length a) + (m - n))%nat by lia.
  replace (m - length b)%nat with ((n - length b) + (m - n))%nat by lia.
  rewrite !repeat_app, !app_assoc.
  rewrite zip_app_same_length by (rewrite !pad_length; lia).
  rewrite compare_loop_app, compare_loop_same. by destruct (_ =? 0)%Z eqn:E; [apply Z.eqb_eq in E|].
Qed.

(** X30. Zero parts at the end of a version do not change a comparison: 1.2
    and 1.2.0.0 compare alike with every version. *)
Theorem trailing_zero_parts_do_not_matter (a b : list Z) (n : nat) :
  compare_parts (a ++ repeat 0%Z n) b = compare_parts a b
  /\ compare_parts a (b ++ repeat 0%Z n) = compare_parts a b.
Proof.
  assert (forall a b, compare_parts (a ++ repeat 0%Z n) b = compare_parts a b) as Hleft.
  { clear a b. intros a b.
    rewrite <- (compare_parts_padded a b (Nat.max (length a + n) (length b))) by lia.
    unfold compare_parts. cbv zeta. rewrite length_app, repeat_length.
    set (m := Nat.max (length a + n) (length b)).
    rewrite <- app_assoc, <- repeat_app.
    by replace (n + (m - (length a + n)))%nat with (m - length a)%nat by lia. }
  split; [apply Hleft|].
  rewrite (compare_parts_swap (b ++ repeat 0%Z n) a), Hleft, <- compare_parts_swap. done.
Qed.

(** X28. When [_compare_versions] returns for two versions, the result is
    -1, 0 or 1, swapping the versions negates it, and a version compares
    equal to itself. *)
Theorem compare_versions_antisymmetric (py_int : string -> option Z)
    (version_a version_b : string) (c : Z) :
  _compare_versions py_int version_a version_b = Some c ->
  _compare_versions py_int version_b version_a = Some (- c)%Z
  /\ _compare_versions py_int version_a version_a = Some 0%Z
  /\ (c = -1 \/ c = 0 \/ c = 1)%Z.
Proof.
  unfold _compare_versions.
  destruct (normalize py_int version_a) as [a|]; [|done].
  destruct (normalize py_int version_b) as [b|]; [|done].
  intros [= <-]. rewrite compare_parts_swap, compare_parts_same. repeat split.
  unfold compare_parts. generalize (zip (a ++ repeat 0%Z (Nat.max (length a) (length b) - length a))
                                        (b ++ repeat 0%Z (Nat.max (length a) (length b) - length b))).
  intros l. induction l as [|[x y] l IH]; cbn; [auto|].
  destruct (y <? x)%Z; [auto|]. destruct (x <? y)%Z; auto.
Qed.

Lemma compare_versions_antisymmetric_ex :
  _compare_versions digits_int "1.9" "1.10.0" = Some (- (1))%Z
  /\ _compare_versions digits_int "1.10.0" "1.10.0" = Some 0%Z
  /\ (1 = -1 \/ 1 = 0 \/ 1 = 1)%Z.
Proof. apply (compare_versions_antisymmetric digits_int "1.10.0" "1.9" 1). reflexivity. Defined.

Lemma part_padded (l : list Z) (k i : nat) : nth i (l ++ repeat 0%Z k) 0%Z = part l i.
Proof.
  unfold part. destruct (Nat.lt_ge_cases i (length l)) as [Hlt|Hge].
  - by rewrite app_nth1.
  - rewrite app_nth2 by lia. rewrite (nth_overflow l) by lia. apply nth_repeat.
Qed.

Lemma compare_loop_spec (pa pb : list Z) :
  length pa = length pb ->
  (compare_loop (zip pa pb) = 0%Z -> forall i, nth i pa 0%Z = nth i pb 0%Z)
  /\ (compare_loop (zip pa pb) = 1%Z ->
      exists i, (nth i pb 0 < nth i pa 0)%Z /\ forall j, (j < i)%nat -> nth j pa 0%Z = nth j pb 0%Z)
  /\ (compare_loop (zip pa pb) = (-1)%Z ->
      exists i, (nth i pa 0 < nth i pb 0)%Z /\ forall j, (j < i)%nat -> nth j pa 0%Z = nth j pb 0%Z).
Proof.
  revert pb. induction pa as [|x pa IH]; intros [|y pb] Hlen; cbn in Hlen; try done.
  cbn [zip zip_with compare_loop].
  destruct (IH pb) as (H0 & H1 & H2); [lia|].
  destruct (Z.ltb_spec y x) as [Hyx|Hyx]; [|destruct (Z.ltb_spec x y) as [Hxy|Hxy]].
  - repeat split; try done. intros _. exists 0%nat. split; [done|]. intros j Hj. lia.
  - repeat split; try done. intros _. exists 0%nat. split; [done|]. intros j Hj. lia.
  - assert (x = y) as -> by lia. repeat split.
    + intros H [|i]; [done|]. by apply H0.
    + intros H. destruct (H1 H) as (i & Hi & Hj). exists (S i). split; [done|].
      intros [|j] Hlt; [done|]. apply Hj. lia.
    + intros H. destruct (H2 H) as (i & Hi & Hj). exists (S i). split; [done|].
      intros [|j] Hlt; [done|]. apply Hj. lia.
Qed.

(** X29. [_compare_versions] compares the parts as numbers, position by
    position, a missing part counting as zero: the result is 0 only if all
    parts agree, and 1 (or -1) only if at the first position where they
    differ the first (or second) version has the larger number. *)
Theorem compare_parts_is_numeric_and_positional (a b : list Z) :
  (compare_parts a b = 0%Z -> forall i, part a i = part b i)
  /\ (compare_parts a b = 1%Z ->
      exists i, (part b i < part a i)%Z /\ forall j, (j < i)%nat -> part a j = part b j)
  /\ (compare_parts a b = (-1)%Z ->
      exists i, (part a i < part b i)%Z /\ forall j, (j < i)%nat -> part a j = part b j).
Proof.
  unfold compare_parts. cbv zeta.
  set (m := Nat.max (length a) (length b)).
  destruct (compare_loop_spec (a ++ repeat 0%Z (m - length a)) (b ++ repeat 0%Z (m - length b)))
    as (H0 & H1 & H2).
  { rewrite !pad_length; lia. }
  repeat split.
  - intros H i. specialize (H0 H i). by rewrite !part_padded in H0.
  - intros H. destruct (H1 H) as (i & Hi & Hj). exists i. rewrite !part_padded in Hi.
    split; [done|]. intros j Hlt. specialize (Hj j Hlt). by rewrite !part_padded in Hj.
  - intros H. destruct (H2 H) as (i & Hi & Hj). exists i. rewrite !part_padded in Hi.
    split; [done|]. intros j Hlt. specialize (Hj j Hlt). by rewrite !part_padded in Hj.
Qed.

Import Manager.

Lemma start_connection_connections s id :
  connections (start_connection s id).1 = connections s.
Proof.
  unfold start_connection, _spawn_worker.
  destruct (workers s !! id) as [h|]; [destruct (negb (wh_alive h))|];
    destruct (connections s !! id); done.
Qed.

Lemma start_connection_other s id other :
  other <> id -> workers (start_connection s id).1 !! other = workers s !! other.
Proof.
  intros Hne. unfold start_connection, _spawn_worker.
  destruct (workers s !! id) as [h|]; [destruct (negb (wh_alive h))|];
    destruct (connections s !! id); cbn; rewrite ?lookup_insert_ne by done; done.
Qed.

Lemma start_connection_live s id :
  (start_connection s id).2 = true ->
  exists worker, workers (start_connection s id).1 !! id = Some worker
                 /\ wh_alive worker = true.
Proof.
  unfold start_connection, _spawn_worker.
  destruct (workers s !! id) as [h|]; [destruct (wh_alive h) eqn:Ha|];
    destruct (connections s !! id); cbn; try done;
    intros _; rewrite lookup_insert_eq; eauto.
Qed.

Lemma start_connection_refused s id :
  (start_connection s id).2 = false ->
  (start_connection s id).1 = s /\ connections s !! id = None
  /\ forall worker, workers s !! id = Some worker -> wh_alive worker = false.
Proof.
  unfold start_connection, _spawn_worker.
  destruct (workers s !! id) as [h|]; [destruct (wh_alive h) eqn:Ha|];
    destruct (connections s !! id); cbn; try done.
  intros _. repeat split. by intros ? [= <-].
Qed.

(** X22. [start_connection] returns true only with a live worker in the
    dictionary for the id afterwards; it returns false only when there is no
    row for the id and no live worker, and then changes nothing. It never
    touches the table nor the workers of other ids. *)
Theorem start_connection_result (s : State) (connection_id : Z) :
  let s' := (start_connection s connection_id).1 in
  ((start_connection s connection_id).2 = true ->
     exists worker, workers s' !! connection_id = Some worker /\ wh_alive worker = true)
  /\ ((start_connection s connection_id).2 = false ->
     s' = s /\ connections s !! connection_id = None
     /\ forall worker, workers s !! connection_id = Some worker -> wh_alive worker = false)
  /\ connections s' = connections s
  /\ (forall other, other <> connection_id -> workers s' !! other = workers s !! other).
Proof.
  cbv zeta. split; [apply start_connection_live|]. split; [apply start_connection_refused|].
  split; [apply start_connection_connections|].
  intros other Hne. by apply start_connection_other.
Qed.

(** X23. [start_connection] is idempotent: once it has returned true,
    calling it again returns true and only sets the wake event of the worker
    in the dictionary. *)
Theorem start_connection_twice (s : State) (connection_id : Z) :
  (start_connection s connection_id).2 = true ->
  let s1 := (start_connection s connection_id).1 in
  (start_connection s1 connection_id).2 = true
  /\ connections (start_connection s1 connection_id).1 = connections s
  /\ workers (start_connection s1 connection_id).1
     = alter trigger_sync connection_id (workers s1).
Proof.
  intros Hok s1.
  destruct (start_connection_live s connection_id Hok) as (worker & Hw & Ha).
  pose proof (start_connection_connections s connection_id) as Hconn.
  fold s1 in Hw, Hconn.
  assert (start_connection s1 connection_id
          = (set_worker connection_id (trigger_sync worker) s1, true)) as ->.
  { unfold start_connection. by rewrite Hw, Ha. }
  cbn. repeat split; [done|].
  apply map_eq. intros i. destruct (decide (i = connection_id)) as [->|Hne].
  - by rewrite lookup_insert_eq, lookup_alter_eq, Hw.
  - by rewrite lookup_insert_ne, lookup_alter_ne.
Qed.

Lemma start_connection_twice_ex :
  let s := {| connections := {[ 1%Z := {| cn_enabled := 1; cn_status := "Stopped";
                                         cn_last_error := None |} ]};
              workers := ∅ |} in
  let s1 := (start_connection s 1).1 in
  (start_connection s1 1).2 = true
  /\ connections (start_connection s1 1).1 = connections s
  /\ workers (start_connection s1 1).1 = alter trigger_sync 1%Z (workers s1).
Proof.
  apply (start_connection_twice
           {| connections := {[ 1%Z := {| cn_enabled := 1; cn_status := "Stopped";
                                          cn_last_error := None |} ]};
              workers := ∅ |} 1).
  vm_compute. reflexivity.
Defined.

Lemma stop_connection_workers s id : workers (stop_connection s id) = delete id (workers s).
Proof.
  unfold stop_connection. destruct (workers s !! id) eqn:E; cbn; [done|].
  symmetry. by apply delete_id.
Qed.

Lemma stop_connection_row s id other :
  connections (stop_connection s id) !! other
  = if decide (other = id /\ is_Some (workers s !! id))
    then (fun row => {| cn_enabled := cn_enabled row; cn_status := "Stopped";
                        cn_last_error := None |}) <$> connections s !! other
    else connections s !! other.
Proof.
  unfold stop_connection. destruct (workers s !! id) eqn:E; cbn.
  - destruct (decide (other = id)) as [->|Hne].
    + rewrite decide_True by eauto. by rewrite lookup_alter_eq.
    + rewrite decide_False by tauto. by rewrite lookup_alter_ne.
  - rewrite decide_False; [done|]. by intros [_ [? ?]].
Qed.

(** X24. After [refresh_connection] a worker is in the dictionary for the id
    exactly when the connection exists and is enabled, and that worker is a
    freshly started one; other ids are not touched. *)
Theorem refresh_connection_result (s : State) (connection_id : Z) :
  let s' := refresh_connection s connection_id in
  (is_Some (workers s' !! connection_id)
   <-> exists conn, connections s !! connection_id = Some conn
                    /\ bool_of_int (cn_enabled conn) = true)
  /\ (forall worker, workers s' !! connection_id = Some worker ->
        worker = {| wh_alive := true; wh_stop_event := false; wh_wake_event := false |})
  /\ (forall other, other <> connection_id ->
        workers s' !! other = workers s !! other
        /\ connections s' !! other = connections s !! other).
Proof.
  cbv zeta. unfold refresh_connection. cbv zeta.
  pose proof (stop_connection_workers s connection_id) as Hw.
  pose proof (stop_connection_row s connection_id) as Hrow.
  set (s0 := stop_connection s connection_id) in *.
  assert (workers s0 !! connection_id = None) as Hnone by (rewrite Hw; apply lookup_delete_eq).
  assert (cn_enabled <$> connections s0 !! connection_id
          = cn_enabled <$> connections s !! connection_id) as Hen.
  { rewrite Hrow. case_decide; [|done]. by destruct (connections s !! connection_id). }
  assert (forall other, other <> connection_id ->
            workers s0 !! other = workers s !! other
            /\ connections s0 !! other = connections s !! other) as Hother.
  { intros other Hne. rewrite Hw, Hrow, lookup_delete_ne by done.
    by rewrite decide_False by tauto. }
  destruct (connections s0 !! connection_id) as [conn0|] eqn:E0;
    destruct (connections s !! connection_id) as [conn|] eqn:E; try done.
  - injection Hen as Hen. rewrite Hen.
    destruct (bool_of_int (cn_enabled conn)) eqn:Eb.
    + unfold start_connection, _spawn_worker. rewrite Hnone, E0. cbn.
      rewrite lookup_insert_eq. split; [|split].
      * split; [eauto|by eexists].
      * by intros ? [= <-].
      * intros other Hne. rewrite lookup_insert_ne by done. by apply Hother.
    + rewrite Hnone. split; [|split; [done|done]].
      split; [by intros [? ?]|]. intros (c & [= <-] & Hc). congruence.
  - rewrite Hnone. split; [|split; [done|done]].
    split; [by intros [? ?]|]. by intros (c & ? & _).
Qed.

(** X25. After [remove_connection] the id has neither a row nor a worker,
    and the rows and workers of all other ids are as before. *)
Theorem remove_connection_result (s : State) (connection_id : Z) :
  let s' := remove_connection s connection_id in
  connections s' !! connection_id = None
  /\ workers s' !! connection_id = None
  /\ (forall other, other <> connection_id ->
        workers s' !! other = workers s !! other
        /\ connections s' !! other = connections s !! other).
Proof.
  cbv zeta. unfold remove_connection. cbv zeta. cbn [connections workers].
  rewrite stop_connection_workers. split; [apply lookup_delete_eq|].
  split; [apply lookup_delete_eq|]. intros other Hne.
  rewrite !lookup_delete_ne by done. rewrite stop_connection_row.
  by rewrite decide_False by tauto.
Qed.

Lemma foldl_stop_connection ids s :
  workers (foldl stop_connection s ids) = foldr delete (workers s) (reverse ids)
  /\ forall other,
       connections (foldl stop_connection s ids) !! other
       = if decide (other ∈ ids /\ is_Some (workers s !! other))
         then (fun row => {| cn_enabled := cn_enabled row; cn_status := "Stopped";
                             cn_last_error := None |}) <$> connections s !! other
         else connections s !! other.
Proof.
  revert s. induction ids as [|id ids IH]; intros s; cbn [foldl].
  - split; [done|]. intros other. rewrite decide_False; [done|].
    intros [H _]. by apply elem_of_nil in H.
  - destruct (IH (stop_connection s id)) as [Hw Hc]. split.
    + rewrite Hw, stop_connection_workers, reverse_cons, foldr_app. done.
    + intros other. rewrite Hc, stop_connection_workers, !stop_connection_row.
      destruct (decide (other = id)) as [->|Hne].
      * rewrite lookup_delete_eq.
        rewrite (decide_False (P := id ∈ ids /\ is_Some None)) by (by intros [_ [? ?]]).
        destruct (workers s !! id) as [h|] eqn:E.
        -- rewrite !decide_True; [done| |]; (split; [|eauto]); [left|done].
        -- rewrite !decide_False; [done| |]; by intros [_ [? ?]].
      * rewrite lookup_delete_ne by done.
        rewrite (decide_False (P := other = id /\ _)) by tauto.
        destruct (decide (other ∈ ids /\ is_Some (workers s !! other))) as [[Hin Hs]|Hn].
        -- rewrite decide_True; [done|]. split; [by right|done].
        -- rewrite decide_False; [done|]. intros [Hin Hs]. apply Hn. split; [|done].
           apply elem_of_cons in Hin as [?|?]; [done|done].
Qed.

Lemma foldr_delete_lookup {V} (ids : list Z) (m : gmap Z V) i :
  foldr delete m ids !! i = if decide (i ∈ ids) then None else m !! i.
Proof.
  induction ids as [|id ids IH]; cbn [foldr].
  - by rewrite decide_False by apply not_elem_of_nil.
  - destruct (decide (i = id)) as [->|Hne].
    + rewrite lookup_delete_eq. by rewrite decide_True by left.
    + rewrite lookup_delete_ne, IH by done.
      destruct (decide (i ∈ ids)).
      * by rewrite decide_True by by right.
      * rewrite decide_False; [done|]. rewrite elem_of_cons. tauto.
Qed.

(** X26. After [stop_all] the dictionary of workers is empty, the row of
    every connection that had a worker has status [Stopped] and no error,
    and the other rows are unchanged. *)
Theorem stop_all_result (s : State) :
  workers (stop_all s) = ∅
  /\ forall other,
       connections (stop_all s) !! other
       = if decide (is_Some (workers s !! other))
         then (fun row => {| cn_enabled := cn_enabled row; cn_status := "Stopped";
                             cn_last_error := None |}) <$> connections s !! other
         else connections s !! other.
Proof.
  unfold stop_all.
  destruct (foldl_stop_connection (elements (dom (workers s))) s) as [Hw Hc]. split.
  - rewrite Hw. apply map_eq. intros i. rewrite foldr_delete_lookup, lookup_empty.
    case_decide as Hin; [done|]. apply not_elem_of_dom.
    intros Hd. apply Hin, elem_of_reverse, elem_of_elements, Hd.
  - intros other. rewrite Hc.
    destruct (decide (is_Some (workers s !! other))) as [Hs|Hn].
    + rewrite decide_True; [done|]. split; [|done]. by apply elem_of_elements, elem_of_dom.
    + rewrite decide_False; [done|]. tauto.
Qed.

Lemma start_all_step_alive s id id' h :
  workers s !! id' = Some h -> wh_alive h = true ->
  exists h', workers (start_connection s id).1 !! id' = Some h' /\ wh_alive h' = true.
Proof.
  intros Hh Ha. destruct (decide (id' = id)) as [->|Hne].
  - unfold start_connection. rewrite Hh, Ha. cbn. rewrite lookup_insert_eq. eauto.
  - rewrite start_connection_other by done. eauto.
Qed.

Lemma start_all_loop (rows : list (Z * ConnectionRow)) s :
  let s' := foldl (fun s conn =>
                     if bool_of_int (cn_enabled conn.2)
                     then (start_connection s conn.1).1 else s) s rows in
  connections s' = connections s
  /\ (forall id h, workers s !! id = Some h -> wh_alive h = true ->
        exists h', workers s' !! id = Some h' /\ wh_alive h' = true)
  /\ (forall id conn, (id, conn) ∈ rows -> is_Some (connections s !! id) ->
        bool_of_int (cn_enabled conn) = true ->
        exists h', workers s' !! id = Some h' /\ wh_alive h' = true).
Proof.
  cbv zeta. revert s. induction rows as [|[id conn] rows IH]; intros s; cbn [foldl fst snd].
  - split; [done|]. split; [eauto|]. intros ? ? H. by apply elem_of_nil in H.
  - set (s1 := if bool_of_int (cn_enabled conn) then (start_connection s id).1 else s).
    assert (connections s1 = connections s) as Hc1.
    { subst s1. destruct (bool_of_int (cn_enabled conn));
        [apply start_connection_connections|done]. }
    assert (forall id' h, workers s !! id' = Some h -> wh_alive h = true ->
              exists h', workers s1 !! id' = Some h' /\ wh_alive h' = true) as Ha1.
    { intros id' h Hh Ha. subst s1.
      destruct (bool_of_int (cn_enabled conn)); [|eauto]. by eapply start_all_step_alive. }
    destruct (IH s1) as (Hc & Ha & Hs). split; [by rewrite Hc|]. split.
    + intros id' h Hh Hal. destruct (Ha1 id' h Hh Hal) as (h1 & Hh1 & Hal1). eauto.
    + intros id' conn' Hin Hrow Hen. apply elem_of_cons in Hin as [[= -> ->]|Hin].
      * assert (exists h1, workers s1 !! id = Some h1 /\ wh_alive h1 = true)
          as (h1 & Hh1 & Hal1).
        { subst s1. rewrite Hen.
          destruct (start_connection s id).2 eqn:Eok; [by apply start_connection_live|].
          destruct (start_connection_refused s id Eok) as (_ & Hnone & _).
          rewrite Hnone in Hrow. by destruct Hrow. }
        eauto.
      * apply (Hs id' conn' Hin); [by rewrite Hc1|done].
Qed.

(** X27. After [start_all] every enabled connection has a live worker, the
    workers that were alive still are, and the table is unchanged. *)
Theorem start_all_result (s : State) :
  connections (start_all s) = connections s
  /\ (forall id conn, connections s !! id = Some conn -> bool_of_int (cn_enabled conn) = true ->
        exists worker, workers (start_all s) !! id = Some worker /\ wh_alive worker = true)
  /\ (forall id worker, workers s !! id = Some worker -> wh_alive worker = true ->
        exists worker', workers (start_all s) !! id = Some worker' /\ wh_alive worker' = true).
Proof.
  unfold start_all. destruct (start_all_loop (list_connections s) s) as (Hc & Ha & Hs).
  split; [done|]. split; [|done].
  intros id conn Hrow Hen. apply (Hs id conn); [|by eexists|done].
  unfold list_connections. rewrite elem_of_reverse, merge_sort_Permutation.
  by apply elem_of_map_to_list.
Qed.

Import Sftp.

Lemma RemoteEntry_nested_ind (P : RemoteEntry -> Prop) :
  (forall filename st_mtime st_size, P (RemoteFile filename st_mtime st_size)) ->
  (forall filename msg, P (RemoteDir filename (Raise msg))) ->
  (forall filename sub, Forall P sub -> P (RemoteDir filename (Ok sub))) ->
  forall entry, P entry.
Proof.
  intros Hfile Hraise Hdir. fix IH 1. intros [filename m s|filename [sub|msg]].
  - apply Hfile.
  - apply Hdir. induction sub as [|entry sub IHsub]; constructor; [apply IH|exact IHsub].
  - apply Hraise.
Qed.

Lemma walk_entry_dir rel filename sub files :
  walk_entry rel (RemoteDir filename (Ok sub)) files
  = walk_entries (rel_join rel filename) sub files.
Proof.
  revert files. induction sub as [|entry sub IH]; intros files; [reflexivity|].
  cbn [walk_entries walk_entry].
  destruct (walk_entry (rel_join rel filename) entry files) as [files1|]; [|reflexivity].
  rewrite <- IH. reflexivity.
Qed.

Lemma walk_entry_sound : forall entry rel files out,
  walk_entry rel entry files = Ok out ->
  forall k meta, out !! k = Some meta ->
    files !! k = Some meta \/ file_in [entry] rel k meta.
Proof.
  induction entry as [filename m s|filename msg|filename sub IH] using RemoteEntry_nested_ind;
    intros rel files out.
  - cbn [walk_entry]. intros [= <-] k meta.
    destruct (decide (rel_join rel filename = k)) as [<-|Hne].
    + rewrite lookup_insert_eq. intros [= <-]. right. apply file_here. left.
    + rewrite lookup_insert_ne by done. auto.
  - done.
  - rewrite walk_entry_dir. intros Hwalk k meta Hk.
    assert (files !! k = Some meta \/ file_in sub (rel_join rel filename) k meta) as [?|Hin];
      [|by left|right; eapply file_below; [left|exact Hin]].
    revert files Hwalk. induction IH as [|entry sub Hentry _ IHsub]; intros files; cbn [walk_entries].
    + intros [= <-]. by left.
    + destruct (walk_entry (rel_join rel filename) entry files) as [files1|] eqn:E; [|done].
      intros Hrest. destruct (IHsub files1 Hrest) as [Hold|Hin].
      * destruct (Hentry _ _ _ E k meta Hold) as [?|Hin]; [by left|right].
        inversion Hin as [? ? ? ? ? Hmem|? ? ? ? ? ? Hmem Hsub]; subst.
        -- apply list_elem_of_singleton in Hmem as <-. apply file_here. left.
        -- apply list_elem_of_singleton in Hmem as <-. eapply file_below; [left|exact Hsub].
      * right. inversion Hin as [? ? ? ? ? Hmem|? ? ? ? ? ? Hmem Hsub]; subst.
        -- apply file_here. by right.
        -- eapply file_below; [by right|exact Hsub].
Qed.

Lemma walk_entries_sound entries : forall rel files out,
  walk_entries rel entries files = Ok out ->
  forall k meta, out !! k = Some meta ->
    files !! k = Some meta \/ file_in entries rel k meta.
Proof.
  induction entries as [|entry entries IH]; intros rel files out; cbn [walk_entries].
  - intros [= <-]. by left.
  - destruct (walk_entry rel entry files) as [files1|] eqn:E; [|done].
    intros Hrest k meta Hk. destruct (IH _ _ _ Hrest k meta Hk) as [Hold|Hin].
    + destruct (walk_entry_sound _ _ _ _ E k meta Hold) as [?|Hin]; [by left|right].
      inversion Hin as [? ? ? ? ? Hmem|? ? ? ? ? ? Hmem Hsub]; subst.
      * apply list_elem_of_singleton in Hmem as <-. apply file_here. left.
      * apply list_elem_of_singleton in Hmem as <-. eapply file_below; [left|exact Hsub].
    + right. inversion Hin as [? ? ? ? ? Hmem|? ? ? ? ? ? Hmem Hsub]; subst.
      * apply file_here. by right.
      * eapply file_below; [by right|exact Hsub].
Qed.

(** The walk only adds keys. *)
Lemma walk_entry_keeps : forall entry rel files out k,
  walk_entry rel entry files = Ok out -> is_Some (files !! k) -> is_Some (out !! k).
Proof.
  induction entry as [filename m s|filename msg|filename sub IH] using RemoteEntry_nested_ind;
    intros rel files out k.
  - cbn [walk_entry]. intros [= <-] Hk. rewrite lookup_insert_is_Some.
    destruct (decide (rel_join rel filename = k)); [by left|by right].
  - done.
  - rewrite walk_entry_dir. revert files.
    induction IH as [|entry sub Hentry _ IHsub]; intros files; cbn [walk_entries].
    + by intros [= <-].
    + destruct (walk_entry (rel_join rel filename) entry files) as [files1|] eqn:E; [|done].
      intros Hrest Hk. apply (IHsub files1 Hrest). by apply (Hentry _ _ _ _ E).
Qed.

Lemma walk_entries_keeps entries : forall rel files out k,
  walk_entries rel entries files = Ok out -> is_Some (files !! k) -> is_Some (out !! k).
Proof.
  induction entries as [|entry entries IH]; intros rel files out k; cbn [walk_entries].
  - by intros [= <-].
  - destruct (walk_entry rel entry files) as [files1|] eqn:E; [|done].
    intros Hrest Hk. apply (IH _ _ _ _ Hrest). by apply (walk_entry_keeps _ _ _ _ _ E).
Qed.

Lemma walk_entries_complete entries rel k meta :
  file_in entries rel k meta ->
  forall files out, walk_entries rel entries files = Ok out -> is_Some (out !! k).
Proof.
  induction 1 as [entries rel filename m s Hmem|entries rel filename sub k meta Hmem _ IH].
  - induction entries as [|entry entries IHe]; [by apply elem_of_nil in Hmem|].
    intros files out. cbn [walk_entries].
    destruct (walk_entry rel entry files) as [files1|] eqn:E; [|done]. intros Hrest.
    apply elem_of_cons in Hmem as [<-|Hmem]; [|by apply (IHe Hmem files1)].
    apply (walk_entries_keeps _ _ _ _ _ Hrest). cbn [walk_entry] in E.
    injection E as <-. rewrite lookup_insert_eq. eauto.
  - induction entries as [|entry entries IHe]; [by apply elem_of_nil in Hmem|].
    intros files out. cbn [walk_entries].
    destruct (walk_entry rel entry files) as [files1|] eqn:E; [|done]. intros Hrest.
    apply elem_of_cons in Hmem as [<-|Hmem]; [|by apply (IHe Hmem files1)].
    apply (walk_entries_keeps _ _ _ _ _ Hrest). rewrite walk_entry_dir in E.
    by apply (IH files).
Qed.

(** X21. When [list_recursive] returns, the session was connected and its
    keys are exactly the relative paths of the regular files of the remote
    tree: every key is the path of such a file, with the [mtime] and [size]
    the server reported for it, and every such file has a key. *)
Theorem list_recursive_lists_the_files (connected : bool) (ensure_error : option string)
    (entries : list RemoteEntry) (out : gmap string FileMeta) :
  list_recursive connected ensure_error (Ok entries) = Ok out ->
  connected = true /\ ensure_error = None
  /\ (forall k meta, out !! k = Some meta -> file_in entries "" k meta)
  /\ (forall k meta, file_in entries "" k meta -> is_Some (out !! k)).
Proof.
  unfold list_recursive. destruct connected; [|done]. destruct ensure_error; [done|].
  cbn [negb]. intros Hwalk. repeat split.
  - intros k meta Hk. destruct (walk_entries_sound _ _ _ _ Hwalk k meta Hk) as [Hold|?]; [|done].
    by rewrite lookup_empty in Hold.
  - intros k meta Hin. by apply (walk_entries_complete _ _ _ _ Hin ∅).
Qed.

Lemma list_recursive_lists_the_files_ex :
  let entries :=
    [ RemoteFile "a.txt" 200 10;
      RemoteDir "docs" (Ok [ RemoteFile "b.txt" 300 7; RemoteDir "empty" (Ok []) ]) ] in
  let out : gmap string FileMeta :=
    {[ "a.txt" := {| mtime := 200; size := 10 |};
       "docs/b.txt" := {| mtime := 300; size := 7 |} ]} in
  true = true /\ (None : option string) = None
  /\ (forall k meta, out !! k = Some meta -> file_in entries "" k meta)
  /\ (forall k meta, file_in entries "" k meta -> is_Some (out !! k)).
Proof.
  cbv zeta. apply list_recursive_lists_the_files. vm_compute. reflexivity.
Defined.

Lemma lstrip_starts_clean chars s : starts_clean chars (lstrip chars s).
Proof.
  induction s as [|c s IH]; cbn [lstrip]; [done|].
  destruct (in_chars c chars) eqn:E; [done|]. exact E.
Qed.

Section scan_keys.
Variable ignore : IgnoreRules.

Lemma scan_files_clean rel_dir filenames files out :
  keys_clean files -> scan_files ignore rel_dir filenames files = Ok out -> keys_clean out.
Proof.
  revert files. induction filenames as [|[name st] rest IH]; intros files Hinv; cbn [scan_files].
  - by intros [= <-].
  - destruct (should_ignore ignore _); [by apply IH|].
    destruct st as [st| |msg]; [|by apply IH|done].
    apply IH. intros k. destruct (decide (lstrip "./" (join_path rel_dir name) = k)) as [<-|Hne].
    + intros _. apply lstrip_starts_clean.
    + rewrite lookup_insert_ne by done. apply Hinv.
Qed.

Lemma walk_clean : forall (d : Dir) rel_dir files out,
  keys_clean files -> walk ignore rel_dir d files = Ok out -> keys_clean out.
Proof.
  fix IH 1. intros [filenames dirs] rel_dir files out Hinv. cbn [walk].
  destruct (scan_files ignore rel_dir filenames files) as [files1|] eqn:E; [|done].
  apply scan_files_clean in E; [|done]. clear Hinv files. revert files1 E.
  induction dirs as [|[d_name sub] rest IHdirs]; intros files1 Hinv.
  - by intros [= <-].
  - destruct (should_ignore ignore _); [by apply IHdirs|].
    destruct (walk ignore (join_path rel_dir d_name) sub files1) as [files2|] eqn:E2; [|done].
    apply IHdirs. by apply (IH sub _ _ _ Hinv E2).
Qed.
End scan_keys.

(** X11. No key of the local snapshot begins with a dot or a slash:
    [lstrip("./")] removes them, so a file [.env] at the root is recorded
    under the key [env]. *)
Theorem scan_local_keys_lose_leading_dots (ignore : IgnoreRules) (tree : Dir)
    (local_snapshot : gmap string FileMeta) :
  scan_local ignore tree = Ok local_snapshot ->
  map_Forall (fun k _ => starts_clean "./" k) local_snapshot.
Proof.
  intros Hscan k meta Hk. eapply (walk_clean ignore); [|exact Hscan|by eexists].
  intros k'. rewrite lookup_empty. by intros [? ?].
Qed.

Lemma scan_local_keys_lose_leading_dots_ex :
  map_Forall (fun k _ => starts_clean "./" k)
             ({[ "env" := {| mtime := 100; size := 1 |} ]} : gmap string FileMeta).
Proof.
  apply (scan_local_keys_lose_leading_dots {| patterns := [] |}
           (MkDir [(".env", StatOk {| mtime := 100; size := 1 |})] [])).
  vm_compute. reflexivity.
Defined.
